(** * Rewriting the LC_UUID load command of a Mach-O executable

    A shallow embedding of [cmd/link/internal/ld/macho_update_uuid.go]:
    [uuidFromGoBuildId], which derives a 16-byte identifier from the Go
    build id, and [machoRewriteUuid], which copies an executable and patches
    the payload of its LC_UUID load command with that identifier.

    Bytes are [Init.Byte.byte]; unsigned machine integers are [Z] with the
    wrap-around written where the code can reach it; a file is the list of
    its bytes together with the position of its handle. *)

From Stdlib Require Import ZArith String List Lia Bool.
From coqutil Require Import Byte Word.LittleEndianList.
Import ListNotations.
Local Open Scope Z_scope.

(** ** A monad interface shared by the panic monad and the file monad *)

Class Monad (m : Type -> Type) : Type := {
  ret : forall {A}, A -> m A;
  bind : forall {A B}, m A -> (A -> m B) -> m B
}.

Notation "x <- c ;; k" := (bind c (fun x => k))
  (at level 61, c at next level, right associativity).
Notation "' pat <- c ;; k" := (bind c (fun x => match x with pat => k end))
  (at level 61, pat pattern, c at next level, right associativity).
Notation "c ;;; k" := (bind c (fun _ => k))
  (at level 61, right associativity).

(** A Go expression that may panic at run time (index or slice bound out of
    range) evaluates to [None]. *)
#[export] Instance Monad_option : Monad option := {
  ret := fun _ a => Some a;
  bind := fun _ _ c k => match c with Some a => k a | None => None end
}.

(** ** Go slices of bytes *)

Module Go.

(** [make([]byte, n)]: [n] zero bytes. *)
Definition make (n : nat) : list byte := repeat Byte.x00 n.

(** [s[:n]]; panics when [n] exceeds the length. *)
Definition slice_to (s : list byte) (n : nat) : option (list byte) :=
  if (n <=? length s)%nat then Some (firstn n s) else None.

(** [s[i]] as a value; panics out of range. *)
Definition index (s : list byte) (i : nat) : option byte := nth_error s i.

(** [s[i] = b]; panics out of range. *)
Definition store (s : list byte) (i : nat) (b : byte) : option (list byte) :=
  if (i <? length s)%nat then Some (firstn i s ++ b :: skipn (S i) s)
  else None.

(** [b & m] and [b | m] on [uint8]. *)
Definition and8 (b : byte) (m : Z) : byte :=
  byte.of_Z (Z.land (byte.unsigned b) m).
Definition or8 (b : byte) (m : Z) : byte :=
  byte.of_Z (Z.lor (byte.unsigned b) m).

(** [s[i] &= m] and [s[i] |= m]. *)
Definition and_assign (s : list byte) (i : nat) (m : Z) : option (list byte) :=
  b <- index s i ;; store s i (and8 b m).
Definition or_assign (s : list byte) (i : nat) (m : Z) : option (list byte) :=
  b <- index s i ;; store s i (or8 b m).

(** The builtin [copy(dst, src)]: the first [min (len dst) (len src)]
    elements of [dst] are replaced, its length is kept. *)
Definition copy (dst src : list byte) : list byte :=
  firstn (length dst) src ++ skipn (length src) dst.

End Go.

(** ** The hash of the build id *)

(** Modelled from the spec: package [cmd/internal/notsha256] is not part of
    the sources at hand.  The spec asks for "a 256-bit (32-byte)
    cryptographic-strength hash"; the call site uses
    [notsha256.Sum256 : []byte -> [32]byte].  The array type is rendered as
    a list together with its length. *)
Class Hash256 : Type := {
  Sum256 : list byte -> list byte;
  Sum256_length : forall data, length (Sum256 data) = 32%nat
}.

(** ** [uuidFromGoBuildId] *)

Section Uuid.
Context {hash : Hash256}.

(** [uuidFromGoBuildId] hashes the Go build ID and returns a slice of 16
    bytes; [None] stands for a run-time panic. *)
Definition uuidFromGoBuildId (buildID : string) : option (list byte) :=
  if String.eqb buildID EmptyString then
    Some (Go.make 16)
  else
    let hashedBuildID := Sum256 (list_byte_of_string buildID) in
    rv <- Go.slice_to hashedBuildID 16 ;;
    rv <- Go.and_assign rv 6 0x0f ;;
    rv <- Go.or_assign rv 6 0x30 ;;
    rv <- Go.and_assign rv 8 0x3f ;;
    rv <- Go.or_assign rv 8 0xc0 ;;
    Some rv.

End Uuid.

(** ** Byte order and fixed-size records *)

(** The two implementations of [binary.ByteOrder] a Mach-O file can report. *)
Inductive ByteOrder : Type := LittleEndian | BigEndian.

(** [order.Uint32(b)] and [order.PutUint32(b, v)] on four bytes. *)
Definition Uint32 (order : ByteOrder) (b : list byte) : Z :=
  match order with
  | LittleEndian => le_combine b
  | BigEndian => le_combine (rev b)
  end.

Definition PutUint32 (order : ByteOrder) (v : Z) : list byte :=
  match order with
  | LittleEndian => le_split 4 v
  | BigEndian => rev (le_split 4 v)
  end.

(** The values [binary.Read] and [binary.Write] accept: a fixed size, and a
    decoding and an encoding that follow the byte order. *)
Class Fixed (T : Type) : Type := {
  Size : nat;
  decode : ByteOrder -> list byte -> T;
  encode : ByteOrder -> T -> list byte
}.
Arguments Size T {_}.

(** [b[i:j]] for a list known to be long enough. *)
Definition sub (b : list byte) (i j : nat) : list byte :=
  firstn (j - i) (skipn i b).

(** Modelled from the spec: the type [loadCmd] is declared elsewhere in
    package [ld].  The spec's command header is "a 2-field fixed record:
    tag (4-byte enumerated value) and total record size in bytes (4-byte
    unsigned)". *)
Record loadCmd : Type := { Cmd : Z; Len : Z }.

#[export] Instance Fixed_loadCmd : Fixed loadCmd := {
  Size := 8;
  decode := fun order b =>
    {| Cmd := Uint32 order (sub b 0 4); Len := Uint32 order (sub b 4 8) |};
  encode := fun order c => PutUint32 order (Cmd c) ++ PutUint32 order (Len c)
}.

(** Modelled from the spec: the type [uuidCmd] is declared elsewhere in
    package [ld].  The spec's UUID command record is the "command header
    followed immediately by a 16-byte payload at the first byte after the
    header". *)
Record uuidCmd : Type := { uuidCmd_Cmd : Z; uuidCmd_Len : Z; Uuid : list byte }.

Definition set_Uuid (u : uuidCmd) (v : list byte) : uuidCmd :=
  {| uuidCmd_Cmd := uuidCmd_Cmd u; uuidCmd_Len := uuidCmd_Len u; Uuid := v |}.

#[export] Instance Fixed_uuidCmd : Fixed uuidCmd := {
  Size := 24;
  decode := fun order b =>
    {| uuidCmd_Cmd := Uint32 order (sub b 0 4);
       uuidCmd_Len := Uint32 order (sub b 4 8);
       Uuid := sub b 8 24 |};
  encode := fun order u =>
    PutUint32 order (uuidCmd_Cmd u) ++ PutUint32 order (uuidCmd_Len u) ++ Uuid u
}.

(** ** The output file and its monad

    The output file is held in memory.  An operation on it fails only for a
    reason its bytes and its position determine (a read past the end, a
    negative offset); failures of the operating system (a file that cannot
    be created, a disk that cannot be written) are outside the model, and so
    are the permission bits and the deferred [Close], which leave the bytes
    alone. *)

(** Modelled from the spec: the error kinds of section 7. *)
Inductive error : Type := IOError | TruncatedRecord | OutOfBounds.

Inductive outcome (A : Type) : Type :=
| Ok (a : A)
| Fail (e : error)
| Panicked.
Arguments Ok {A} a.
Arguments Fail {A} e.
Arguments Panicked {A}.

(** An open file: its bytes and the position of the handle. *)
Record File : Type := { contents : list byte; position : Z }.

(** A computation on the output file [outf]; the file survives an error. *)
Definition IO (A : Type) : Type := File -> outcome A * File.

#[export] Instance Monad_IO : Monad IO := {
  ret := fun _ a f => (Ok a, f);
  bind := fun _ _ c k f =>
    match c f with
    | (Ok a, f') => k a f'
    | (Fail e, f') => (Fail e, f')
    | (Panicked, f') => (Panicked, f')
    end
}.

(** A call that may panic, made from a computation on the file. *)
Definition call {A : Type} (v : option A) : IO A :=
  fun f => match v with Some a => (Ok a, f) | None => (Panicked, f) end.

(** [int64(z)]: two's complement wrap-around. *)
Definition int64 (z : Z) : Z := (z + 2 ^ 63) mod 2 ^ 64 - 2 ^ 63.

Definition size (f : File) : Z := Z.of_nat (length (contents f)).

(** The bytes of [data] written over [old] from offset [off] on; a gap
    between the end of [old] and [off] is filled with zero bytes, as a write
    past the end of a file does. *)
Definition overwrite (old : list byte) (off : nat) (data : list byte) : list byte :=
  firstn off old ++ repeat Byte.x00 (off - length old) ++ data
    ++ skipn (off + length data) old.

(** [f.Seek(off, 0)]: a negative offset is refused. *)
Definition File_Seek (off : Z) : IO Z :=
  fun f =>
    if off <? 0 then (Fail IOError, f)
    else (Ok off, {| contents := contents f; position := off |}).

(** [f.Write(data)] at the position of the handle. *)
Definition File_Write (data : list byte) : IO Z :=
  fun f =>
    (Ok (Z.of_nat (length data)),
     {| contents := overwrite (contents f) (Z.to_nat (position f)) data;
        position := position f + Z.of_nat (length data) |}).

(** [io.ReadFull(f, buf)] for a buffer of [n] bytes: all of them or the
    error [e]. *)
Definition io_ReadFull (n : nat) (e : error) : IO (list byte) :=
  fun f =>
    if position f + Z.of_nat n <=? size f then
      (Ok (sub (contents f) (Z.to_nat (position f)) (Z.to_nat (position f) + n)),
       {| contents := contents f; position := position f + Z.of_nat n |})
    else (Fail e, f).

(** A write that must stay inside the file: it is refused when it would reach
    past the end. *)
Definition File_Overwrite (data : list byte) : IO Z :=
  fun f =>
    if position f + Z.of_nat (length data) <=? size f then File_Write data f
    else (Fail OutOfBounds, f).

(** [io.Copy(outf, exef)]: every byte of the source is written to [outf]. *)
Definition io_Copy (exef : list byte) : IO Z := File_Write exef.

(** ** The load-command reader *)

(** Modelled from the spec: [loadCmdReader] and its methods [Next],
    [ReadAt] and [WriteAt] are declared elsewhere in package [ld]; they are
    the RecordStream of section 4.2.  The composite literal in
    [machoRewriteUuid] shows the fields [next] (an [int64]), [f] and
    [order]; [offset] is the start of the most recently read record.  The
    file [f] is the state of the [IO] monad. *)
Record loadCmdReader : Type := { offset : Z; next : Z; order : ByteOrder }.

(** Modelled from the spec: "reads a CommandHeader-shaped record at the
    stream's current offset using the configured byte order, advances an
    internal cursor by that header's declared size, and returns the header.
    Fails with an IO/TruncatedRecord error if fewer bytes remain than the
    header's fixed size." *)
Definition Next (r : loadCmdReader) : IO (loadCmd * loadCmdReader) :=
  File_Seek (next r) ;;;
  b <- io_ReadFull (Size loadCmd) TruncatedRecord ;;
  let cmd : loadCmd := decode (order r) b in
  ret (cmd, {| offset := next r;
               next := int64 (next r + Len cmd);
               order := order r |}).

(** Modelled from the spec: "reads sizeof(T) bytes starting at (last record
    start + relativeOffset) into out, decoding multi-byte fields per the
    configured byte order.  Does not advance the main cursor.  Fails if the
    read would cross the file's end." *)
Definition ReadAt {T : Type} `{Fixed T} (r : loadCmdReader) (rel : Z) : IO T :=
  File_Seek (int64 (offset r + rel)) ;;;
  b <- io_ReadFull (Size T) OutOfBounds ;;
  ret (decode (order r) b).

(** Modelled from the spec: "symmetric write, encoding value's fields per
    the configured byte order, at the same computed offset [...].  Fails if
    the target region falls outside the file bounds (no truncation/growth is
    ever performed)." *)
Definition WriteAt {T : Type} `{Fixed T} (r : loadCmdReader) (rel : Z) (v : T)
  : IO unit :=
  File_Seek (int64 (offset r + rel)) ;;;
  File_Overwrite (encode (order r) v) ;;;
  ret tt.

(** ** The parsed executable *)

(** [macho.FileHeader] of package [debug/macho]: seven 32-bit fields. *)
Record FileHeader : Type := {
  Magic : Z; Cpu : Z; SubCpu : Z; Type_ : Z; Ncmd : Z; Cmdsz : Z; Flags : Z
}.

(** What [machoRewriteUuid] uses of [*macho.File]. *)
Record macho_File : Type := { Header : FileHeader; ByteOrder_ : ByteOrder }.

(** [macho.Magic64]. *)
Definition Magic64 : Z := 0xfeedfacf.

(** [unsafe.Sizeof(exem.FileHeader)] and [unsafe.Sizeof(exem.Magic)]. *)
Definition Sizeof_FileHeader : Z := 7 * 4.
Definition Sizeof_Magic : Z := 4.

(** ** [machoRewriteUuid] *)

Section Rewrite.
Context {hash : Hash256}.

(** The tag of the UUID load command, a constant of package [ld] that is
    declared outside this file. *)
Variable LC_UUID : Z.

(** The build id, [*flagBuildid] in the linker. *)
Variable flagBuildid : string.

(** The offset of the load commands, the local variable [cmdOffset]. *)
Definition cmdOffset (exem : macho_File) : Z :=
  let cmdOffset := Sizeof_FileHeader in
  if Magic (Header exem) =? Magic64 then
    (* mach_header_64 has one extra uint32. *)
    cmdOffset + Sizeof_Magic
  else cmdOffset.

(** The loop over the load commands, with [n] iterations left. *)
Fixpoint scanLoadCmds (n : nat) (reader : loadCmdReader) : IO unit :=
  match n with
  | O => ret tt
  | S n' =>
      '(cmd, reader) <- Next reader ;;
      if Cmd cmd =? LC_UUID then
        u <- ReadAt (T := uuidCmd) reader 0 ;;
        id <- call (uuidFromGoBuildId flagBuildid) ;;
        let u := set_Uuid u (Go.copy (Uuid u) id) in
        WriteAt reader 0 u ;;;
        ret tt
      else scanLoadCmds n' reader
  end.

(** [machoRewriteUuid] on the freshly created and truncated [outf]. *)
Definition machoRewriteUuid (exef : list byte) (exem : macho_File) : IO unit :=
  (* Copy over the file. *)
  io_Copy exef ;;;
  (* Locate the portion of the binary containing the load commands. *)
  let cmdOffset := cmdOffset exem in
  File_Seek (int64 cmdOffset) ;;;
  (* Read the load commands, looking for the LC_UUID cmd. *)
  let reader := {| offset := 0; next := int64 cmdOffset;
                   order := ByteOrder_ exem |} in
  scanLoadCmds (Z.to_nat (Ncmd (Header exem))) reader.

(** [os.OpenFile(outexe, O_RDWR|O_CREATE|O_TRUNC, 0755)]: an empty file. *)
Definition OpenFile_trunc : File := {| contents := []; position := 0 |}.

(** A run of [machoRewriteUuid]: what it returns, and the bytes of the
    output file when it does. *)
Definition run (exef : list byte) (exem : macho_File)
  : outcome unit * list byte :=
  let '(res, outf) := machoRewriteUuid exef exem OpenFile_trunc in
  (res, contents outf).

End Rewrite.

(** ** An instance of the hash: the complement of SHA-256 *)

(** An instance of [Hash256] to evaluate the functions above on concrete
    build ids: SHA-256 (FIPS 180-4) with the digest complemented, which is
    what the name of the package announces.  No theorem below depends on
    this choice; they hold for every [Hash256]. *)
Module NotSha256.

Definition u32 (z : Z) : Z := z mod 2 ^ 32.
Definition add32 (x y : Z) : Z := u32 (x + y).
Definition rotr (x n : Z) : Z :=
  Z.lor (Z.shiftr x n) (u32 (Z.shiftl x (32 - n))).
Definition not32 (x : Z) : Z := Z.lxor x 0xffffffff.

Definition Ch (x y z : Z) : Z := Z.lxor (Z.land x y) (Z.land (not32 x) z).
Definition Maj (x y z : Z) : Z :=
  Z.lxor (Z.lxor (Z.land x y) (Z.land x z)) (Z.land y z).
Definition bsig0 (x : Z) : Z := Z.lxor (Z.lxor (rotr x 2) (rotr x 13)) (rotr x 22).
Definition bsig1 (x : Z) : Z := Z.lxor (Z.lxor (rotr x 6) (rotr x 11)) (rotr x 25).
Definition ssig0 (x : Z) : Z := Z.lxor (Z.lxor (rotr x 7) (rotr x 18)) (Z.shiftr x 3).
Definition ssig1 (x : Z) : Z := Z.lxor (Z.lxor (rotr x 17) (rotr x 19)) (Z.shiftr x 10).

(** The first [count] primes, by trial division among the numbers from 2
    to [bound + 1]. *)
Definition is_prime (p : Z) : bool :=
  forallb (fun d => negb (p mod d =? 0))
          (map Z.of_nat (seq 2 (Z.to_nat p - 2))).

Definition primes (count bound : nat) : list Z :=
  firstn count (filter is_prime (map Z.of_nat (seq 2 bound))).

(** The largest [r + k], [k] below [2 ^ bits], whose cube is at most [n]. *)
Fixpoint cube_root (bits : nat) (n r : Z) : Z :=
  match bits with
  | O => r
  | S b =>
      let r' := r + 2 ^ Z.of_nat b in
      cube_root b n (if r' ^ 3 <=? n then r' else r)
  end.

(** The round constants: the first 32 bits of the fractional parts of the
    cube roots of the first 64 primes. *)
Definition K : list Z :=
  map (fun p => u32 (cube_root 40 (p * 2 ^ 96) 0)) (primes 64 310).

(** The eight working words. *)
Definition state : Type := (Z * Z * Z * Z * Z * Z * Z * Z)%type.

(** The initial words: the first 32 bits of the fractional parts of the
    square roots of the first 8 primes. *)
Definition init : state :=
  match map (fun p => u32 (Z.sqrt (p * 2 ^ 64))) (primes 8 18) with
  | [a; b; c; d; e; f; g; h] => (a, b, c, d, e, f, g, h)
  | _ => (0, 0, 0, 0, 0, 0, 0, 0)
  end.

(** The sixteen big-endian words of a 64-byte block. *)
Fixpoint words (n : nat) (b : list byte) : list Z :=
  match n with
  | O => []
  | S n' => Uint32 BigEndian (firstn 4 b) :: words n' (skipn 4 b)
  end.

(** The message schedule, extended by [n] words. *)
Fixpoint schedule (n : nat) (w : list Z) : list Z :=
  match n with
  | O => w
  | S n' =>
      let t := length w in
      let at_ (i : nat) := nth (t - i) w 0 in
      schedule n'
        (w ++ [add32 (add32 (ssig1 (at_ 2%nat)) (at_ 7%nat))
                     (add32 (ssig0 (at_ 15%nat)) (at_ 16%nat))])
  end.

Definition round (s : state) (kw : Z * Z) : state :=
  let '(a, b, c, d, e, f, g, h) := s in
  let t1 := add32 (add32 (add32 h (bsig1 e)) (add32 (Ch e f g) (fst kw))) (snd kw) in
  let t2 := add32 (bsig0 a) (Maj a b c) in
  (add32 t1 t2, a, b, c, add32 d t1, e, f, g).

Definition block (s : state) (b : list byte) : state :=
  let '(a, b', c, d, e, f, g, h) :=
    fold_left round (combine K (schedule 48 (words 16 b))) s in
  let '(a0, b0, c0, d0, e0, f0, g0, h0) := s in
  (add32 a0 a, add32 b0 b', add32 c0 c, add32 d0 d,
   add32 e0 e, add32 f0 f, add32 g0 g, add32 h0 h).

Fixpoint blocks (n : nat) (s : state) (b : list byte) : state :=
  match n with
  | O => s
  | S n' => blocks n' (block s (firstn 64 b)) (skipn 64 b)
  end.

(** The message followed by a one bit, zero bits up to 56 modulo 64, and
    the length in bits as a big-endian 64-bit word. *)
Definition pad (data : list byte) : list byte :=
  let len := Z.of_nat (length data) in
  data ++ [Byte.x80] ++ repeat Byte.x00 (Z.to_nat ((55 - len) mod 64))
       ++ rev (le_split 8 (8 * len)).

Definition checkSum (s : state) : list byte :=
  let '(a, b, c, d, e, f, g, h) := s in
  flat_map (fun w => PutUint32 BigEndian (not32 w)) [a; b; c; d; e; f; g; h].

Definition sum (data : list byte) : list byte :=
  let m := pad data in
  checkSum (blocks (length m / 64) init m).

Definition hash : Hash256.
Proof.
  refine {| Sum256 := sum |}.
  intro data. unfold sum.
  destruct (blocks _ init (pad data)) as [[[[[[[a b] c] d] e] f] g] h].
  reflexivity.
Defined.

End NotSha256.

(** ** What an image contains *)

Section Images.

Variable LC_UUID : Z.
Variable order : ByteOrder.
Variable image : list byte.

(** The command header that starts at offset [off] of the image. *)
Definition header_at (off : Z) : loadCmd :=
  decode order (sub image (Z.to_nat off) (Z.to_nat off + 8)).

(** [uuid_record n off at_]: walking the command stream from offset [off],
    each record giving the start of the next one by its declared size, the
    first UUID-tagged record is met within [n] records; it starts at [at_]
    and its 24 bytes lie inside the image. *)
Inductive uuid_record : nat -> Z -> Z -> Prop :=
| uuid_record_here (n : nat) (off : Z) :
    0 <= off ->
    off + 24 <= Z.of_nat (length image) ->
    Cmd (header_at off) = LC_UUID ->
    uuid_record (S n) off off
| uuid_record_later (n : nat) (off at_ : Z) :
    0 <= off ->
    off + 8 <= Z.of_nat (length image) ->
    Cmd (header_at off) <> LC_UUID ->
    uuid_record n (off + Len (header_at off)) at_ ->
    uuid_record (S n) off at_.

(** [no_uuid_record n off]: walking from [off], [n] command headers can be
    read and none of them is UUID-tagged. *)
Inductive no_uuid_record : nat -> Z -> Prop :=
| no_uuid_record_done (off : Z) : no_uuid_record O off
| no_uuid_record_skip (n : nat) (off : Z) :
    0 <= off ->
    off + 8 <= Z.of_nat (length image) ->
    Cmd (header_at off) <> LC_UUID ->
    no_uuid_record n (off + Len (header_at off)) ->
    no_uuid_record (S n) off.

End Images.

(** The image with the 16 bytes from offset [at_ + 8] on replaced by [id]. *)
Definition with_uuid (image : list byte) (at_ : Z) (id : list byte) : list byte :=
  firstn (Z.to_nat at_ + 8) image ++ id ++ skipn (Z.to_nat at_ + 24) image.

(** An image is a file the system can hold: offsets inside it, and one
    record size past them, fit the signed 64-bit cursor. *)
Definition representable (image : list byte) : Prop :=
  Z.of_nat (length image) + 2 ^ 32 <= 2 ^ 63.

(** A computation keeps the length of the file, whatever it returns. *)
Definition keeps_length {A : Type} (c : IO A) : Prop :=
  forall f : File, length (contents (snd (c f))) = length (contents f).

(** ** Concrete images *)

Module Sample.

Definition le32 (v : Z) : list byte := PutUint32 LittleEndian v.
Definition be32 (v : Z) : list byte := PutUint32 BigEndian v.

(** The value of LC_UUID in the Mach-O format. *)
Definition LC_UUID : Z := 0x1b.

(** A 64-bit little-endian header announcing [ncmd] load commands. *)
Definition header64 (ncmd : Z) : list byte :=
  le32 0xfeedfacf ++ le32 0x0100000c ++ le32 0 ++ le32 2
    ++ le32 ncmd ++ le32 64 ++ le32 0 ++ le32 0.

Definition exem64 (ncmd : Z) : macho_File :=
  {| Header := {| Magic := 0xfeedfacf; Cpu := 0x0100000c; SubCpu := 0;
                  Type_ := 2; Ncmd := ncmd; Cmdsz := 64; Flags := 0 |};
     ByteOrder_ := LittleEndian |}.

(** A 32-bit big-endian header. *)
Definition header32 (ncmd : Z) : list byte :=
  be32 0xfeedface ++ be32 18 ++ be32 0 ++ be32 2
    ++ be32 ncmd ++ be32 40 ++ be32 0.

Definition exem32 (ncmd : Z) : macho_File :=
  {| Header := {| Magic := 0xfeedface; Cpu := 18; SubCpu := 0;
                  Type_ := 2; Ncmd := ncmd; Cmdsz := 40; Flags := 0 |};
     ByteOrder_ := BigEndian |}.

(** Three load commands; the third one is the UUID command, its payload
    sixteen zero bytes. *)
Definition image3 : list byte :=
  header64 3
    ++ (le32 0x32 ++ le32 16 ++ repeat Byte.x01 8)
    ++ (le32 0x2a ++ le32 8)
    ++ (le32 0x1b ++ le32 24 ++ repeat Byte.x00 16).

(** Two UUID commands after an ordinary one. *)
Definition image_two_uuids : list byte :=
  header64 3
    ++ (le32 0x32 ++ le32 16 ++ repeat Byte.x01 8)
    ++ (le32 0x1b ++ le32 24 ++ repeat Byte.x02 16)
    ++ (le32 0x1b ++ le32 24 ++ repeat Byte.x03 16).

(** Two load commands, none of them the UUID command, big-endian. *)
Definition image_no_uuid : list byte :=
  header32 2
    ++ (be32 0x1 ++ be32 12 ++ repeat Byte.x01 4)
    ++ (be32 0x2 ++ be32 8).

(** A header alone. *)
Definition image_empty : list byte := header64 0.

End Sample.

(** ** The bits of the digest an identifier keeps *)

(** The bits of each of the sixteen bytes that [uuidFromGoBuildId] takes
    from the digest: all of them, but for the high nibble of byte 6 and the
    top two bits of byte 8. *)
Definition uuid_mask : list Z :=
  [0xff; 0xff; 0xff; 0xff; 0xff; 0xff; 0x0f; 0xff;
   0x3f; 0xff; 0xff; 0xff; 0xff; 0xff; 0xff; 0xff].

Definition kept_bits (h : list byte) : list Z :=
  map (fun bm => Z.land (byte.unsigned (fst bm)) (snd bm)) (combine h uuid_mask).

(** ** What a walk over the command stream ends on *)

(** The four ways the scan of [machoRewriteUuid] can end. *)
Inductive walk_end : Type :=
| Found (at_ : Z)
| Absent
| ShortHeader (off : Z)
| ShortRecord (at_ : Z).

Section Walk.

Variable LC_UUID : Z.
Variable order : ByteOrder.
Variable image : list byte.

(** [walk n off]: the end of a walk of at most [n] records from offset
    [off]: a complete UUID command ([Found]), [n] headers none of which is
    UUID-tagged ([Absent]), an offset with fewer than 8 bytes left
    ([ShortHeader]), or a UUID-tagged header with fewer than 24 bytes left
    ([ShortRecord]). *)
Fixpoint walk (n : nat) (off : Z) : walk_end :=
  match n with
  | O => Absent
  | S n' =>
      if off + 8 <=? Z.of_nat (length image) then
        if Cmd (header_at order image off) =? LC_UUID then
          if off + 24 <=? Z.of_nat (length image) then Found off
          else ShortRecord off
        else walk n' (off + Len (header_at order image off))
      else ShortHeader off
  end.

End Walk.

(** What the run returns, and the bytes it leaves, for each end. *)
Definition result_of (w : walk_end) : outcome unit :=
  match w with
  | Found _ | Absent => Ok tt
  | ShortHeader _ => Fail TruncatedRecord
  | ShortRecord _ => Fail OutOfBounds
  end.

Definition output_of (w : walk_end) (image id : list byte) : list byte :=
  match w with
  | Found at_ => with_uuid image at_ id
  | _ => image
  end.

(** ** The records of the stream *)

Section Stream.

Variable order : ByteOrder.
Variable image : list byte.

(** [stream_reaches off off']: following the declared sizes of the command
    headers of the image from offset [off], the walk comes to offset
    [off']. *)
Inductive stream_reaches : Z -> Z -> Prop :=
| stream_reaches_here (off : Z) : stream_reaches off off
| stream_reaches_next (off off' : Z) :
    0 <= off ->
    off + 8 <= Z.of_nat (length image) ->
    stream_reaches (off + Len (header_at order image off)) off' ->
    stream_reaches off off'.

End Stream.

(** ** More concrete images *)

Module Truncated.

(** A UUID-tagged header whose payload is cut after eight bytes. *)
Definition image_short_uuid : list byte :=
  Sample.header64 1
    ++ (Sample.le32 0x1b ++ Sample.le32 24 ++ repeat Byte.x05 8).

(** A command whose declared size points past the end of the image. *)
Definition image_short_header : list byte :=
  Sample.header64 2 ++ (Sample.le32 0x32 ++ Sample.le32 4096 ++ repeat Byte.x01 8).

End Truncated.

Module Overlap.

(** A UUID-tagged record that declares a size of 8, the size of its header
    alone, followed in the stream by a second UUID-tagged record. *)
Definition image_small_uuid : list byte :=
  Sample.header64 2
    ++ (Sample.le32 0x1b ++ Sample.le32 8)
    ++ (Sample.le32 0x1b ++ Sample.le32 24 ++ repeat Byte.x03 16).

End Overlap.

(** * Properties of [uuidFromGoBuildId] *)

Section UuidFacts.
Context {hash : Hash256}.

Lemma version_nibble (b : byte) :
  Z.shiftr (byte.unsigned (Go.or8 (Go.and8 b 0x0f) 0x30)) 4 = 3.
Proof. destruct b; reflexivity. Qed.

Lemma variant_bits (b : byte) :
  Z.shiftr (byte.unsigned (Go.or8 (Go.and8 b 0x3f) 0xc0)) 6 = 3.
Proof. destruct b; reflexivity. Qed.

Lemma eqb_nonempty (s : string) :
  s <> EmptyString -> String.eqb s EmptyString = false.
Proof. intro H. now apply String.eqb_neq. Qed.

(** The result on a non-empty build id: the first sixteen bytes of the
    digest with bytes 6 and 8 patched. *)
Lemma uuidFromGoBuildId_nonempty (s : string) :
  s <> EmptyString ->
  exists (h rv : list byte) (b6 b8 : byte),
    h = Sum256 (list_byte_of_string s) /\
    nth_error h 6 = Some b6 /\ nth_error h 8 = Some b8 /\
    uuidFromGoBuildId s = Some rv /\
    length rv = 16%nat /\
    nth_error rv 6 = Some (Go.or8 (Go.and8 b6 0x0f) 0x30) /\
    nth_error rv 8 = Some (Go.or8 (Go.and8 b8 0x3f) 0xc0) /\
    forall i : nat, (i < 16)%nat -> i <> 6%nat -> i <> 8%nat ->
                    nth_error rv i = nth_error h i.
Proof.
  intro Hs. unfold uuidFromGoBuildId. rewrite (eqb_nonempty s Hs).
  pose proof (Sum256_length (list_byte_of_string s)) as Hlen.
  remember (Sum256 (list_byte_of_string s)) as h eqn:Hh.
  exists h.
  do 16 (destruct h as [| ? h]; [discriminate Hlen |]).
  do 3 eexists. repeat (split; [reflexivity |]).
  intros i Hi H6 H8.
  do 16 (destruct i as [| i]; [reflexivity || contradiction |]).
  lia.
Qed.

Lemma uuidFromGoBuildId_length (s : string) :
  exists rv, uuidFromGoBuildId s = Some rv /\ length rv = 16%nat.
Proof.
  destruct (string_dec s EmptyString) as [-> | Hs].
  - exists (Go.make 16). split; reflexivity.
  - destruct (uuidFromGoBuildId_nonempty s Hs)
      as (h & rv & b6 & b8 & _ & _ & _ & Hrv & Hlen & _).
    exists rv. split; assumption.
Qed.

End UuidFacts.

(** * Properties of the encoding *)

Lemma PutUint32_Uint32 (o : ByteOrder) (b : list byte) :
  length b = 4%nat -> PutUint32 o (Uint32 o b) = b.
Proof.
  intro Hb. destruct o; unfold PutUint32, Uint32.
  - rewrite <- Hb. apply split_le_combine.
  - rewrite <- (length_rev b) in Hb. rewrite <- Hb, split_le_combine.
    apply rev_involutive.
Qed.

Lemma Uint32_range (o : ByteOrder) (b : list byte) :
  length b = 4%nat -> 0 <= Uint32 o b < 2 ^ 32.
Proof.
  intro Hb. destruct o; unfold Uint32.
  - pose proof (le_combine_bound b) as H. rewrite Hb in H. exact H.
  - pose proof (le_combine_bound (rev b)) as H.
    rewrite length_rev, Hb in H. exact H.
Qed.

Lemma int64_id (z : Z) : - 2 ^ 63 <= z < 2 ^ 63 -> int64 z = z.
Proof.
  intro H. unfold int64. rewrite Z.mod_small; lia.
Qed.

Lemma length_sub (b : list byte) (i n : nat) :
  (i + n <= length b)%nat -> length (sub b i (i + n)) = n.
Proof.
  intro H. unfold sub. rewrite length_firstn, length_skipn. lia.
Qed.

Lemma sub_sub (b : list byte) (i n j k : nat) :
  (k <= n)%nat -> sub (sub b i (i + n)) j k = sub b (i + j) (i + k).
Proof.
  intro H. unfold sub.
  replace (i + n - i)%nat with n by lia.
  replace (i + k - (i + j))%nat with (k - j)%nat by lia.
  rewrite skipn_firstn_comm, firstn_firstn, skipn_skipn.
  f_equal; [lia | f_equal; lia].
Qed.

Lemma copy_same_length (dst src : list byte) :
  length dst = length src -> Go.copy dst src = src.
Proof.
  intro H. unfold Go.copy.
  rewrite H, firstn_all, skipn_all2 by lia. apply app_nil_r.
Qed.

Lemma firstn_plus (l : list byte) (n m : nat) :
  firstn (n + m) l = firstn n l ++ firstn m (skipn n l).
Proof.
  rewrite firstn_skipn_comm.
  replace (firstn n l) with (firstn n (firstn (n + m) l)).
  - now rewrite firstn_skipn.
  - rewrite firstn_firstn. f_equal. lia.
Qed.

Lemma overwrite_inside (old : list byte) (off : nat) (data : list byte) :
  (off + length data <= length old)%nat ->
  overwrite old off data = firstn off old ++ data ++ skipn (off + length data) old.
Proof.
  intro H. unfold overwrite.
  replace (off - length old)%nat with 0%nat by lia. reflexivity.
Qed.

Lemma patched_uuidCmd (o : ByteOrder) (b id : list byte) :
  length b = 24%nat -> length id = 16%nat ->
  let u : uuidCmd := decode o b in
  encode o (set_Uuid u (Go.copy (Uuid u) id)) = firstn 8 b ++ id.
Proof.
  intros Hb Hid u. subst u.
  cbn [encode decode Fixed_uuidCmd set_Uuid uuidCmd_Cmd uuidCmd_Len Uuid].
  rewrite !PutUint32_Uint32.
  - rewrite copy_same_length.
    + rewrite app_assoc. f_equal.
      change 8%nat with (4 + 4)%nat at 2. rewrite firstn_plus. reflexivity.
    + change 24%nat with (8 + 16)%nat. rewrite length_sub; lia.
  - change 8%nat with (4 + 4)%nat. apply length_sub. lia.
  - change 4%nat with (0 + 4)%nat at 1. apply length_sub. lia.
Qed.

Section RewriteFacts.
Context {hash : Hash256}.
Variable LC_UUID : Z.
Variable flagBuildid : string.

Lemma Next_ok (r : loadCmdReader) (f : File) :
  0 <= next r -> next r + 8 <= size f ->
  Next r f =
    (Ok (header_at (order r) (contents f) (next r),
         {| offset := next r;
            next := int64 (next r + Len (header_at (order r) (contents f) (next r)));
            order := order r |}),
     {| contents := contents f; position := next r + 8 |}).
Proof.
  intros H0 H8. unfold Next, File_Seek, io_ReadFull, size in *.
  cbn [bind Monad_IO ret position contents Size Fixed_loadCmd].
  destruct (Z.ltb_spec (next r) 0) as [? | _]; [lia |].
  cbn [position contents].
  destruct (Z.leb_spec (next r + Z.of_nat 8) (Z.of_nat (length (contents f))))
    as [_ | ?]; [| lia].
  reflexivity.
Qed.

Lemma header_Len_range (o : ByteOrder) (b : list byte) (off : Z) :
  0 <= off -> off + 8 <= Z.of_nat (length b) ->
  0 <= Len (header_at o b off) < 2 ^ 32.
Proof.
  intros H0 H8. unfold header_at. cbn [decode Fixed_loadCmd Len].
  apply Uint32_range. rewrite sub_sub by lia.
  replace (Z.to_nat off + 8)%nat with (Z.to_nat off + 4 + 4)%nat by lia.
  apply length_sub. lia.
Qed.

Lemma ReadAt_uuidCmd_ok (r : loadCmdReader) (f : File) :
  0 <= offset r -> offset r + 24 <= size f -> representable (contents f) ->
  ReadAt (T := uuidCmd) r 0 f =
    (Ok (decode (order r)
           (sub (contents f) (Z.to_nat (offset r)) (Z.to_nat (offset r) + 24))),
     {| contents := contents f; position := offset r + 24 |}).
Proof.
  intros H0 H24 Hrep. unfold representable, size in *.
  unfold ReadAt, File_Seek, io_ReadFull, size.
  rewrite Z.add_0_r, int64_id by lia.
  cbn [bind Monad_IO ret position contents Size Fixed_uuidCmd].
  destruct (Z.ltb_spec (offset r) 0) as [? | _]; [lia |].
  cbn [position contents].
  destruct (Z.leb_spec (offset r + Z.of_nat 24) (Z.of_nat (length (contents f))))
    as [_ | ?]; [| lia].
  reflexivity.
Qed.

Lemma WriteAt_ok (r : loadCmdReader) (f : File) (u : uuidCmd) :
  0 <= offset r -> representable (contents f) ->
  offset r + Z.of_nat (length (encode (order r) u)) <= size f ->
  WriteAt r 0 u f =
    (Ok tt,
     {| contents := firstn (Z.to_nat (offset r)) (contents f)
                      ++ encode (order r) u
                      ++ skipn (Z.to_nat (offset r) + length (encode (order r) u))
                           (contents f);
        position := offset r + Z.of_nat (length (encode (order r) u)) |}).
Proof.
  intros H0 Hrep Hin. unfold representable, size in *.
  unfold WriteAt, File_Seek, File_Overwrite, File_Write, size.
  rewrite Z.add_0_r, int64_id by lia.
  cbn [bind Monad_IO ret position contents].
  destruct (Z.ltb_spec (offset r) 0) as [? | _]; [lia |].
  cbn [position contents].
  destruct (Z.leb_spec (offset r + Z.of_nat (length (encode (order r) u)))
              (Z.of_nat (length (contents f)))) as [_ | ?]; [| lia].
  rewrite overwrite_inside by lia. reflexivity.
Qed.

(** The scan over an image that holds a UUID command. *)
Lemma scanLoadCmds_found (image id : list byte) (o : ByteOrder)
      (n : nat) (off at_ : Z) :
  representable image ->
  uuidFromGoBuildId flagBuildid = Some id -> length id = 16%nat ->
  uuid_record LC_UUID o image n off at_ ->
  forall (r : loadCmdReader) (f : File),
    next r = off -> order r = o -> contents f = image ->
    scanLoadCmds LC_UUID flagBuildid n r f =
      (Ok tt, {| contents := with_uuid image at_ id; position := at_ + 24 |}).
Proof.
  intros Hrep Hid Hlen Hrec.
  induction Hrec as [n off H0 H24 Htag | n off at_ H0 H8 Htag Hrec IH];
    intros r f Hnext Hord Himg; subst off o image;
    cbn [scanLoadCmds bind Monad_IO]; rewrite Next_ok by (unfold size; lia).
  - rewrite Htag, Z.eqb_refl.
    rewrite ReadAt_uuidCmd_ok by (cbn [offset]; unfold size; auto; lia).
    cbn [offset order contents]. unfold call. rewrite Hid.
    remember (sub (contents f) (Z.to_nat (next r)) (Z.to_nat (next r) + 24))
      as b eqn:Eb.
    assert (Hb : length b = 24%nat) by (subst b; apply length_sub; lia).
    pose proof (patched_uuidCmd (order r) b id Hb Hlen) as Hpatch.
    cbn zeta in Hpatch.
    assert (Hsize : length (firstn 8 b ++ id) = 24%nat)
      by (rewrite length_app, length_firstn, Hb, Hlen; reflexivity).
    rewrite WriteAt_ok; cbn [offset order contents]; rewrite ?Hpatch, ?Hsize;
      unfold size; cbn [contents]; auto; try lia.
    cbn [ret Monad_IO]. unfold with_uuid.
    rewrite firstn_plus, <- !app_assoc.
    subst b. unfold sub. rewrite firstn_firstn.
    replace (Z.to_nat (next r) + 24 - Z.to_nat (next r))%nat with 24%nat by lia.
    reflexivity.
  - destruct (Z.eqb_spec (Cmd (header_at (order r) (contents f) (next r))) LC_UUID)
      as [E | _]; [contradiction |].
    apply IH; cbn [next order contents]; auto.
    pose proof (header_Len_range (order r) (contents f) (next r) H0 H8).
    unfold representable in Hrep. apply int64_id. lia.
Qed.

(** The scan over an image whose first [n] commands are not UUID commands. *)
Lemma scanLoadCmds_absent (image : list byte) (o : ByteOrder) (n : nat) (off : Z) :
  representable image ->
  no_uuid_record LC_UUID o image n off ->
  forall (r : loadCmdReader) (f : File),
    next r = off -> order r = o -> contents f = image ->
    exists p, scanLoadCmds LC_UUID flagBuildid n r f =
                (Ok tt, {| contents := image; position := p |}).
Proof.
  intros Hrep Hrec.
  induction Hrec as [off | n off H0 H8 Htag Hrec IH];
    intros r f Hnext Hord Himg; subst off o image.
  - exists (position f). destruct f; reflexivity.
  - cbn [scanLoadCmds bind Monad_IO]. rewrite Next_ok by (unfold size; lia).
    destruct (Z.eqb_spec (Cmd (header_at (order r) (contents f) (next r))) LC_UUID)
      as [E | _]; [contradiction |].
    apply IH; cbn [next order contents]; auto.
    pose proof (header_Len_range (order r) (contents f) (next r) H0 H8).
    unfold representable in Hrep. apply int64_id. lia.
Qed.

End RewriteFacts.

(** * Properties of a patched image *)

Lemma uuid_record_inside (LC_UUID : Z) (o : ByteOrder) (image : list byte)
      (n : nat) (off at_ : Z) :
  uuid_record LC_UUID o image n off at_ ->
  0 <= at_ /\ at_ + 24 <= Z.of_nat (length image) /\
  Cmd (header_at o image at_) = LC_UUID.
Proof. induction 1; auto. Qed.

(** The walk meets one first UUID command at most. *)
Lemma uuid_record_unique (LC_UUID : Z) (o : ByteOrder) (image : list byte)
      (n : nat) (off a1 a2 : Z) :
  uuid_record LC_UUID o image n off a1 ->
  uuid_record LC_UUID o image n off a2 -> a1 = a2.
Proof.
  intro H1. revert a2.
  induction H1 as [n off H0 H24 Htag | n off a1 H0 H8 Htag H1 IH];
    intros a2 H2; inversion H2; subst; auto; contradiction.
Qed.

Section Patched.
Variables (image id : list byte) (at_ : Z).
Hypothesis Hat : 0 <= at_.
Hypothesis Hin : at_ + 24 <= Z.of_nat (length image).
Hypothesis Hid : length id = 16%nat.

Lemma with_uuid_length : length (with_uuid image at_ id) = length image.
Proof.
  unfold with_uuid.
  rewrite !length_app, length_firstn, length_skipn, Hid. lia.
Qed.

Lemma with_uuid_outside (i : nat) :
  Z.of_nat i < at_ + 8 \/ at_ + 24 <= Z.of_nat i ->
  nth_error (with_uuid image at_ id) i = nth_error image i.
Proof.
  intro Hi. unfold with_uuid.
  rewrite nth_error_app, length_firstn, nth_error_firstn.
  replace (Nat.min (Z.to_nat at_ + 8) (length image)) with (Z.to_nat at_ + 8)%nat
    by lia.
  destruct (Nat.ltb_spec i (Z.to_nat at_ + 8)) as [Hlt | Hge]; [reflexivity |].
  rewrite nth_error_app, Hid.
  destruct (Nat.ltb_spec (i - (Z.to_nat at_ + 8)) 16) as [Hlt | Hge']; [lia |].
  rewrite nth_error_skipn. f_equal. lia.
Qed.

Lemma with_uuid_payload :
  sub (with_uuid image at_ id) (Z.to_nat at_ + 8) (Z.to_nat at_ + 24) = id.
Proof.
  unfold with_uuid, sub.
  rewrite skipn_app, length_firstn.
  replace (Nat.min (Z.to_nat at_ + 8) (length image)) with (Z.to_nat at_ + 8)%nat
    by lia.
  rewrite skipn_all2 by (rewrite length_firstn; lia).
  rewrite Nat.sub_diag. cbn [skipn app].
  replace (Z.to_nat at_ + 24 - (Z.to_nat at_ + 8))%nat with (length id + 0)%nat
    by lia.
  rewrite firstn_app_2. cbn [firstn]. apply app_nil_r.
Qed.

Lemma with_uuid_before (i j : nat) :
  (j <= Z.to_nat at_ + 8)%nat ->
  sub (with_uuid image at_ id) i j = sub image i j.
Proof.
  intro Hj. unfold with_uuid, sub.
  rewrite skipn_app, firstn_app, !length_skipn, length_firstn.
  replace (j - i - (Nat.min (Z.to_nat at_ + 8) (length image) - i))%nat
    with 0%nat by lia.
  cbn [firstn]. rewrite app_nil_r, skipn_firstn_comm, firstn_firstn.
  f_equal. lia.
Qed.

Lemma with_uuid_after (i j : nat) :
  (Z.to_nat at_ + 24 <= i)%nat ->
  sub (with_uuid image at_ id) i j = sub image i j.
Proof.
  intro Hi. unfold with_uuid, sub.
  rewrite !skipn_app, length_firstn, Hid.
  rewrite (skipn_all2 (firstn _ _)) by (rewrite length_firstn; lia).
  rewrite (skipn_all2 id) by lia.
  cbn [app]. rewrite skipn_skipn. f_equal. f_equal. lia.
Qed.

End Patched.

(** * Properties of [machoRewriteUuid] *)

Lemma int64_cmdOffset (exem : macho_File) : int64 (cmdOffset exem) = cmdOffset exem.
Proof. unfold cmdOffset. destruct (Magic (Header exem) =? Magic64); reflexivity. Qed.

Section RunFacts.
Context {hash : Hash256}.
Variable LC_UUID : Z.
Variable flagBuildid : string.

(** After the copy and the seek, the scan starts on a file that holds the
    bytes of the source, the handle and the cursor at [cmdOffset]. *)
Lemma machoRewriteUuid_scan (exef : list byte) (exem : macho_File) :
  machoRewriteUuid LC_UUID flagBuildid exef exem OpenFile_trunc =
    scanLoadCmds LC_UUID flagBuildid (Z.to_nat (Ncmd (Header exem)))
      {| offset := 0; next := cmdOffset exem; order := ByteOrder_ exem |}
      {| contents := exef; position := cmdOffset exem |}.
Proof.
  unfold machoRewriteUuid, io_Copy, File_Write, File_Seek, OpenFile_trunc.
  cbn [bind Monad_IO contents position]. rewrite int64_cmdOffset.
  assert (Hpos : (cmdOffset exem <? 0) = false).
  { unfold cmdOffset. destruct (Magic (Header exem) =? Magic64); reflexivity. }
  rewrite Hpos. cbn [contents].
  unfold overwrite. cbn [Z.to_nat firstn length Nat.sub repeat Nat.add app].
  now rewrite skipn_nil, app_nil_r.
Qed.

Lemma run_found (exef id : list byte) (exem : macho_File) (at_ : Z) :
  representable exef ->
  uuidFromGoBuildId flagBuildid = Some id -> length id = 16%nat ->
  uuid_record LC_UUID (ByteOrder_ exem) exef
    (Z.to_nat (Ncmd (Header exem))) (cmdOffset exem) at_ ->
  run LC_UUID flagBuildid exef exem = (Ok tt, with_uuid exef at_ id).
Proof.
  intros Hrep Hid Hlen Hrec. unfold run. rewrite machoRewriteUuid_scan.
  now rewrite (scanLoadCmds_found LC_UUID flagBuildid exef id (ByteOrder_ exem)
                 _ _ at_ Hrep Hid Hlen Hrec).
Qed.

End RunFacts.

(** * An invariant of the scan: the length of the output file *)

Lemma keeps_length_ret {A : Type} (a : A) : keeps_length (ret a).
Proof. intro f. reflexivity. Qed.

Lemma keeps_length_bind {A B : Type} (c : IO A) (k : A -> IO B) :
  keeps_length c -> (forall a, keeps_length (k a)) -> keeps_length (bind c k).
Proof.
  intros Hc Hk f. cbn [bind Monad_IO]. specialize (Hc f).
  destruct (c f) as [[a | e |] f']; cbn [snd] in *; auto.
  now rewrite Hk.
Qed.

Lemma keeps_length_call {A : Type} (v : option A) : keeps_length (call v).
Proof. intro f. unfold call. destruct v; reflexivity. Qed.

Lemma keeps_length_Seek (off : Z) : keeps_length (File_Seek off).
Proof. intro f. unfold File_Seek. destruct (off <? 0); reflexivity. Qed.

Lemma keeps_length_ReadFull (n : nat) (e : error) : keeps_length (io_ReadFull n e).
Proof.
  intro f. unfold io_ReadFull.
  destruct (position f + Z.of_nat n <=? size f); reflexivity.
Qed.

Lemma keeps_length_Next (r : loadCmdReader) : keeps_length (Next r).
Proof.
  unfold Next. repeat (apply keeps_length_bind; intros);
    auto using keeps_length_Seek, keeps_length_ReadFull, keeps_length_ret.
Qed.

Lemma keeps_length_ReadAt {T : Type} `{Fixed T} (r : loadCmdReader) (rel : Z) :
  keeps_length (ReadAt (T := T) r rel).
Proof.
  unfold ReadAt. repeat (apply keeps_length_bind; intros);
    auto using keeps_length_Seek, keeps_length_ReadFull, keeps_length_ret.
Qed.

(** A seek followed by a bounded write: the write lands inside the file. *)
Lemma keeps_length_WriteAt {T : Type} `{Fixed T} (r : loadCmdReader) (rel : Z) (v : T) :
  keeps_length (WriteAt r rel v).
Proof.
  intro f. unfold WriteAt, File_Seek, File_Overwrite, File_Write, size.
  cbn [bind Monad_IO ret].
  destruct (Z.ltb_spec (int64 (offset r + rel)) 0) as [? | Hpos]; [reflexivity |].
  cbn [position contents].
  destruct (Z.leb_spec (int64 (offset r + rel)
                        + Z.of_nat (length (encode (order r) v)))
              (Z.of_nat (length (contents f)))) as [Hin | ?]; [| reflexivity].
  cbn [snd contents]. rewrite overwrite_inside by lia.
  rewrite !length_app, length_firstn, length_skipn. lia.
Qed.

Section KeepsLength.
Context {hash : Hash256}.
Variable LC_UUID : Z.
Variable flagBuildid : string.

Lemma keeps_length_scanLoadCmds (n : nat) :
  forall r : loadCmdReader, keeps_length (scanLoadCmds LC_UUID flagBuildid n r).
Proof.
  induction n as [| n IH]; intro r; cbn [scanLoadCmds].
  - apply keeps_length_ret.
  - apply keeps_length_bind; [apply keeps_length_Next |].
    intros [cmd r']. destruct (Cmd cmd =? LC_UUID); [| apply IH].
    apply keeps_length_bind; [apply keeps_length_ReadAt | intro u].
    apply keeps_length_bind; [apply keeps_length_call | intro id; cbv zeta].
    apply keeps_length_bind; [apply keeps_length_WriteAt | intro].
    apply keeps_length_ret.
Qed.

(** Once the copy has completed, the scan leaves the output file as long as
    the source, whether it returns nil or an error of the reader. *)
Lemma run_length (exef : list byte) (exem : macho_File) :
  length (snd (run LC_UUID flagBuildid exef exem)) = length exef.
Proof.
  unfold run. rewrite machoRewriteUuid_scan.
  pose proof (keeps_length_scanLoadCmds (Z.to_nat (Ncmd (Header exem)))
                {| offset := 0; next := cmdOffset exem; order := ByteOrder_ exem |}
                {| contents := exef; position := cmdOffset exem |}) as H.
  destruct (scanLoadCmds _ _ _ _ _) as [res outf]. exact H.
Qed.

End KeepsLength.

(** * The derived identifier *)

(** C3: [uuidFromGoBuildId] applied to the empty string returns exactly
    sixteen zero bytes. *)
Theorem uuidFromGoBuildId_empty {hash : Hash256} :
  uuidFromGoBuildId EmptyString = Some (repeat Byte.x00 16).
Proof. reflexivity. Qed.

(** C4: for every non-empty build id, byte 6 of the result has its high
    nibble equal to 0x3. *)
Theorem uuidFromGoBuildId_version {hash : Hash256} (s : string) :
  s <> EmptyString ->
  exists (rv : list byte) (b6 : byte),
    uuidFromGoBuildId s = Some rv /\
    nth_error rv 6 = Some b6 /\
    Z.shiftr (byte.unsigned b6) 4 = 0x3.
Proof.
  intro Hs.
  destruct (uuidFromGoBuildId_nonempty s Hs)
    as (h & rv & b6 & b8 & _ & _ & _ & Hrv & _ & H6 & _).
  exists rv, (Go.or8 (Go.and8 b6 0x0f) 0x30).
  repeat split; auto using version_nibble.
Qed.

Lemma uuidFromGoBuildId_version_witness :
  "abc123"%string <> EmptyString /\
  exists (rv : list byte) (b6 : byte),
    @uuidFromGoBuildId NotSha256.hash "abc123" = Some rv /\
    nth_error rv 6 = Some b6 /\
    Z.shiftr (byte.unsigned b6) 4 = 0x3.
Proof.
  split; [discriminate |].
  apply (@uuidFromGoBuildId_version NotSha256.hash "abc123"). discriminate.
Defined.

(** C2, as the code has it: for every non-empty build id, the top two bits
    of byte 8 of the result are 0b11, the bits that [0xc0] sets; they are
    never the 0b10 of the RFC 4122 variant. *)
Theorem uuidFromGoBuildId_variant {hash : Hash256} (s : string) :
  s <> EmptyString ->
  exists (rv : list byte) (b8 : byte),
    uuidFromGoBuildId s = Some rv /\
    nth_error rv 8 = Some b8 /\
    Z.shiftr (byte.unsigned b8) 6 = 3 /\
    Z.shiftr (byte.unsigned b8) 6 <> 2.
Proof.
  intro Hs.
  destruct (uuidFromGoBuildId_nonempty s Hs)
    as (h & rv & b6 & b8 & _ & _ & _ & Hrv & _ & _ & H8 & _).
  exists rv, (Go.or8 (Go.and8 b8 0x3f) 0xc0).
  rewrite variant_bits. repeat split; auto. discriminate.
Qed.

Lemma uuidFromGoBuildId_variant_witness :
  "abc123"%string <> EmptyString /\
  exists (rv : list byte) (b8 : byte),
    @uuidFromGoBuildId NotSha256.hash "abc123" = Some rv /\
    nth_error rv 8 = Some b8 /\
    Z.shiftr (byte.unsigned b8) 6 = 3 /\
    Z.shiftr (byte.unsigned b8) 6 <> 2.
Proof.
  split; [discriminate |].
  apply (@uuidFromGoBuildId_variant NotSha256.hash "abc123"). discriminate.
Defined.

(** The build id "abc123" under the complement of SHA-256: byte 8 is 0xdf,
    whose top two bits are 0b11. *)
Example uuidFromGoBuildId_abc123 :
  option_map (map byte.unsigned) (@uuidFromGoBuildId NotSha256.hash "abc123") =
    Some [0x93; 0x5e; 0xc2; 0xad; 0x35; 0x8f; 0x37; 0x7c;
          0xdf; 0x0f; 0x44; 0xef; 0xe1; 0xbd; 0xa5; 0x76].
Proof. vm_compute. reflexivity. Qed.

(** The instance on the message "abc": the complement of the digest
    ba7816bf 8f01cfea 414140de 5dae2223 b00361a3 96177a9c b410ff61 f20015ad
    of FIPS 180-4. *)
Example NotSha256_abc :
  map (fun b => Z.lxor (byte.unsigned b) 0xff)
      (NotSha256.sum (list_byte_of_string "abc")) =
    [0xba; 0x78; 0x16; 0xbf; 0x8f; 0x01; 0xcf; 0xea;
     0x41; 0x41; 0x40; 0xde; 0x5d; 0xae; 0x22; 0x23;
     0xb0; 0x03; 0x61; 0xa3; 0x96; 0x17; 0x7a; 0x9c;
     0xb4; 0x10; 0xff; 0x61; 0xf2; 0x00; 0x15; 0xad].
Proof. vm_compute. reflexivity. Qed.

(** C8: [uuidFromGoBuildId] is deterministic and never fails: two
    evaluations on the same build id both return, and return the same
    sixteen bytes. *)
Theorem uuidFromGoBuildId_deterministic {hash : Hash256} (s1 s2 : string) :
  s1 = s2 ->
  exists rv : list byte,
    uuidFromGoBuildId s1 = Some rv /\
    uuidFromGoBuildId s2 = Some rv /\
    length rv = 16%nat.
Proof.
  intros <-. destruct (uuidFromGoBuildId_length s1) as (rv & Hrv & Hlen).
  exists rv. auto.
Qed.

Lemma uuidFromGoBuildId_deterministic_witness :
  "abc123"%string = "abc123"%string /\
  exists rv : list byte,
    @uuidFromGoBuildId NotSha256.hash "abc123" = Some rv /\
    @uuidFromGoBuildId NotSha256.hash "abc123" = Some rv /\
    length rv = 16%nat.
Proof.
  split; [reflexivity |].
  apply (@uuidFromGoBuildId_deterministic NotSha256.hash). reflexivity.
Defined.

(** C10: for every input string, empty or not, the result of
    [uuidFromGoBuildId] has length exactly 16. *)
Theorem uuidFromGoBuildId_sixteen {hash : Hash256} (s : string) :
  exists rv : list byte, uuidFromGoBuildId s = Some rv /\ length rv = 16%nat.
Proof. apply uuidFromGoBuildId_length. Qed.

(** * The rewritten image *)

(** C5: the command stream starts at the size of the file header, plus one
    4-byte word exactly when the magic is that of the 64-bit variant; the
    scan starts with the handle of the output file and the cursor of the
    reader at that offset. *)
Theorem machoRewriteUuid_cmdOffset {hash : Hash256} (LC_UUID : Z)
        (flagBuildid : string) (exef : list byte) (exem : macho_File) :
  cmdOffset exem =
    Sizeof_FileHeader + (if Magic (Header exem) =? Magic64 then 4 else 0) /\
  (cmdOffset exem = Sizeof_FileHeader + 4 <-> Magic (Header exem) = Magic64) /\
  (cmdOffset exem = Sizeof_FileHeader <-> Magic (Header exem) <> Magic64) /\
  machoRewriteUuid LC_UUID flagBuildid exef exem OpenFile_trunc =
    scanLoadCmds LC_UUID flagBuildid (Z.to_nat (Ncmd (Header exem)))
      {| offset := 0; next := cmdOffset exem; order := ByteOrder_ exem |}
      {| contents := exef; position := cmdOffset exem |}.
Proof.
  repeat split; try apply machoRewriteUuid_scan; unfold cmdOffset;
    destruct (Z.eqb_spec (Magic (Header exem)) Magic64);
    unfold Sizeof_FileHeader, Sizeof_Magic; intros; try lia; auto.
Qed.

(** The two header layouts. *)
Example cmdOffset_64 : cmdOffset (Sample.exem64 3) = 32.
Proof. reflexivity. Qed.

Example cmdOffset_32 : cmdOffset (Sample.exem32 2) = 28.
Proof. reflexivity. Qed.

(** C1: when the image holds a UUID command within its first [Ncmd]
    records, [machoRewriteUuid] succeeds, the output file is as long as the
    source, and every byte outside the 16-byte payload of that command is
    the byte of the source. *)
Theorem machoRewriteUuid_frame {hash : Hash256} (LC_UUID : Z)
        (flagBuildid : string) (exef : list byte) (exem : macho_File) (at_ : Z) :
  representable exef ->
  uuid_record LC_UUID (ByteOrder_ exem) exef
    (Z.to_nat (Ncmd (Header exem))) (cmdOffset exem) at_ ->
  exists out : list byte,
    run LC_UUID flagBuildid exef exem = (Ok tt, out) /\
    length out = length exef /\
    forall i : nat,
      Z.of_nat i < at_ + 8 \/ at_ + 24 <= Z.of_nat i ->
      nth_error out i = nth_error exef i.
Proof.
  intros Hrep Hrec.
  destruct (uuidFromGoBuildId_length flagBuildid) as (id & Hid & Hlen).
  destruct (uuid_record_inside _ _ _ _ _ _ Hrec) as (H0 & H24 & _).
  exists (with_uuid exef at_ id). split; [| split].
  - now apply run_found.
  - now apply with_uuid_length.
  - intros i Hi. now apply with_uuid_outside.
Qed.

(** The first UUID-tagged record met by the scan is the one rewritten: its
    payload becomes the identifier derived from the build id, its header is
    written back as it was, and every window of the file that starts after
    the 24 bytes written back keeps its bytes. *)
Lemma machoRewriteUuid_first_match {hash : Hash256} (LC_UUID : Z)
        (flagBuildid : string) (exef : list byte) (exem : macho_File) (at_ : Z) :
  representable exef ->
  uuid_record LC_UUID (ByteOrder_ exem) exef
    (Z.to_nat (Ncmd (Header exem))) (cmdOffset exem) at_ ->
  exists id out : list byte,
    uuidFromGoBuildId flagBuildid = Some id /\
    run LC_UUID flagBuildid exef exem = (Ok tt, out) /\
    out = with_uuid exef at_ id /\
    sub out (Z.to_nat at_ + 8) (Z.to_nat at_ + 24) = id /\
    sub out (Z.to_nat at_) (Z.to_nat at_ + 8)
      = sub exef (Z.to_nat at_) (Z.to_nat at_ + 8) /\
    forall off : nat,
      (Z.to_nat at_ + 24 <= off)%nat ->
      sub out off (off + 24) = sub exef off (off + 24).
Proof.
  intros Hrep Hrec.
  destruct (uuidFromGoBuildId_length flagBuildid) as (id & Hid & Hlen).
  destruct (uuid_record_inside _ _ _ _ _ _ Hrec) as (H0 & H24 & _).
  exists id, (with_uuid exef at_ id).
  split; [exact Hid |]. split; [now apply run_found |].
  split; [reflexivity |]. split; [now apply with_uuid_payload |]. split.
  - apply with_uuid_before; auto; lia.
  - intros off Hoff. now apply with_uuid_after.
Qed.

(** The offsets of the stream never decrease. *)
Lemma stream_reaches_le (o : ByteOrder) (image : list byte) (off off' : Z) :
  stream_reaches o image off off' -> off <= off'.
Proof.
  induction 1 as [off | off off' H0 H8 Hrec IH]; [lia |].
  pose proof (header_Len_range o image off H0 H8). lia.
Qed.

(** C6: the first UUID-tagged record met by the scan is read, its payload
    becomes the identifier derived from the build id, its 24 bytes are
    written back at the same offset with the header as it was, and the scan
    stops; when that record declares a size of at least 24, every later
    record of the stream, a second UUID command included, keeps all its
    bytes. *)
Theorem machoRewriteUuid_first_match_sized {hash : Hash256} (LC_UUID : Z)
        (flagBuildid : string) (exef : list byte) (exem : macho_File) (at_ : Z) :
  representable exef ->
  uuid_record LC_UUID (ByteOrder_ exem) exef
    (Z.to_nat (Ncmd (Header exem))) (cmdOffset exem) at_ ->
  24 <= Len (header_at (ByteOrder_ exem) exef at_) ->
  exists id out : list byte,
    uuidFromGoBuildId flagBuildid = Some id /\
    run LC_UUID flagBuildid exef exem = (Ok tt, out) /\
    out = with_uuid exef at_ id /\
    sub out (Z.to_nat at_ + 8) (Z.to_nat at_ + 24) = id /\
    sub out (Z.to_nat at_) (Z.to_nat at_ + 8)
      = sub exef (Z.to_nat at_) (Z.to_nat at_ + 8) /\
    (forall off : nat,
       (Z.to_nat at_ + 24 <= off)%nat ->
       sub out off (off + 24) = sub exef off (off + 24)) /\
    forall off' : Z,
      stream_reaches (ByteOrder_ exem) exef
        (at_ + Len (header_at (ByteOrder_ exem) exef at_)) off' ->
      at_ + 24 <= off' /\
      forall j : nat, sub out (Z.to_nat off') j = sub exef (Z.to_nat off') j.
Proof.
  intros Hrep Hrec Hsize.
  destruct (machoRewriteUuid_first_match LC_UUID flagBuildid exef exem at_
              Hrep Hrec) as (id & out & Hid & Hrun & Hout & Hpay & Hhdr & Hwin).
  destruct (uuidFromGoBuildId_length flagBuildid) as (id' & Hid' & Hlen).
  assert (id' = id) by congruence. subst id'.
  destruct (uuid_record_inside _ _ _ _ _ _ Hrec) as (H0 & H24 & _).
  exists id, out. repeat (split; [assumption |]).
  intros off' Hreach. apply stream_reaches_le in Hreach.
  split; [lia |]. intro j. subst out. apply with_uuid_after; auto. lia.
Qed.

(** C7: when [Ncmd] command headers are read and none is UUID-tagged,
    [Ncmd = 0] included, [machoRewriteUuid] returns no error and the output
    file is the source, byte for byte. *)
Theorem machoRewriteUuid_absent {hash : Hash256} (LC_UUID : Z)
        (flagBuildid : string) (exef : list byte) (exem : macho_File) :
  representable exef ->
  no_uuid_record LC_UUID (ByteOrder_ exem) exef
    (Z.to_nat (Ncmd (Header exem))) (cmdOffset exem) ->
  run LC_UUID flagBuildid exef exem = (Ok tt, exef).
Proof.
  intros Hrep Hrec. unfold run. rewrite machoRewriteUuid_scan.
  destruct (scanLoadCmds_absent LC_UUID flagBuildid exef (ByteOrder_ exem) _ _
              Hrep Hrec
              {| offset := 0; next := cmdOffset exem; order := ByteOrder_ exem |}
              {| contents := exef; position := cmdOffset exem |})
    as (p & Hp); auto.
  now rewrite Hp.
Qed.

(** C9: with the empty build id, the UUID command is still overwritten: its
    payload in the output file is sixteen zero bytes. *)
Theorem machoRewriteUuid_empty_buildid {hash : Hash256} (LC_UUID : Z)
        (exef : list byte) (exem : macho_File) (at_ : Z) :
  representable exef ->
  uuid_record LC_UUID (ByteOrder_ exem) exef
    (Z.to_nat (Ncmd (Header exem))) (cmdOffset exem) at_ ->
  exists out : list byte,
    run LC_UUID EmptyString exef exem = (Ok tt, out) /\
    sub out (Z.to_nat at_ + 8) (Z.to_nat at_ + 24) = repeat Byte.x00 16.
Proof.
  intros Hrep Hrec.
  destruct (uuid_record_inside _ _ _ _ _ _ Hrec) as (H0 & H24 & _).
  exists (with_uuid exef at_ (repeat Byte.x00 16)). split.
  - now apply run_found.
  - now apply with_uuid_payload.
Qed.

(** * The theorems on concrete images *)

(** Closed side conditions of a walk over a concrete image. *)
Ltac closed := vm_compute; first [reflexivity | discriminate | intro; discriminate].

Ltac walk_to_uuid :=
  vm_compute;
  first [ apply uuid_record_here; closed
        | apply uuid_record_later; [closed | closed | closed | walk_to_uuid] ].

Ltac walk_past_all :=
  vm_compute;
  first [ apply no_uuid_record_done
        | apply no_uuid_record_skip; [closed | closed | closed | walk_past_all] ].

Lemma machoRewriteUuid_frame_witness :
  representable Sample.image3 /\
  uuid_record Sample.LC_UUID (ByteOrder_ (Sample.exem64 3)) Sample.image3
    (Z.to_nat (Ncmd (Header (Sample.exem64 3))))
    (cmdOffset (Sample.exem64 3)) 56 /\
  exists out : list byte,
    @run NotSha256.hash Sample.LC_UUID "abc123" Sample.image3
         (Sample.exem64 3) = (Ok tt, out) /\
    length out = length Sample.image3 /\
    forall i : nat,
      Z.of_nat i < 56 + 8 \/ 56 + 24 <= Z.of_nat i ->
      nth_error out i = nth_error Sample.image3 i.
Proof.
  assert (Hrep : representable Sample.image3) by closed.
  assert (Hrec : uuid_record Sample.LC_UUID (ByteOrder_ (Sample.exem64 3))
                   Sample.image3 (Z.to_nat (Ncmd (Header (Sample.exem64 3))))
                   (cmdOffset (Sample.exem64 3)) 56) by walk_to_uuid.
  split; [exact Hrep |]. split; [exact Hrec |].
  exact (@machoRewriteUuid_frame NotSha256.hash Sample.LC_UUID "abc123"
           Sample.image3 (Sample.exem64 3) 56 Hrep Hrec).
Defined.

Lemma machoRewriteUuid_first_match_sized_witness :
  representable Sample.image_two_uuids /\
  uuid_record Sample.LC_UUID (ByteOrder_ (Sample.exem64 3))
    Sample.image_two_uuids
    (Z.to_nat (Ncmd (Header (Sample.exem64 3))))
    (cmdOffset (Sample.exem64 3)) 48 /\
  24 <= Len (header_at (ByteOrder_ (Sample.exem64 3)) Sample.image_two_uuids 48) /\
  exists id out : list byte,
    @uuidFromGoBuildId NotSha256.hash "abc123" = Some id /\
    @run NotSha256.hash Sample.LC_UUID "abc123" Sample.image_two_uuids
         (Sample.exem64 3) = (Ok tt, out) /\
    out = with_uuid Sample.image_two_uuids 48 id /\
    sub out (Z.to_nat 48 + 8) (Z.to_nat 48 + 24) = id /\
    sub out (Z.to_nat 48) (Z.to_nat 48 + 8)
      = sub Sample.image_two_uuids (Z.to_nat 48) (Z.to_nat 48 + 8) /\
    (forall off : nat,
       (Z.to_nat 48 + 24 <= off)%nat ->
       sub out off (off + 24) = sub Sample.image_two_uuids off (off + 24)) /\
    forall off' : Z,
      stream_reaches (ByteOrder_ (Sample.exem64 3)) Sample.image_two_uuids
        (48 + Len (header_at (ByteOrder_ (Sample.exem64 3))
                     Sample.image_two_uuids 48)) off' ->
      48 + 24 <= off' /\
      forall j : nat,
        sub out (Z.to_nat off') j = sub Sample.image_two_uuids (Z.to_nat off') j.
Proof.
  assert (Hrep : representable Sample.image_two_uuids) by closed.
  assert (Hrec : uuid_record Sample.LC_UUID (ByteOrder_ (Sample.exem64 3))
                   Sample.image_two_uuids
                   (Z.to_nat (Ncmd (Header (Sample.exem64 3))))
                   (cmdOffset (Sample.exem64 3)) 48) by walk_to_uuid.
  assert (Hsize : 24 <= Len (header_at (ByteOrder_ (Sample.exem64 3))
                               Sample.image_two_uuids 48)) by closed.
  split; [exact Hrep |]. split; [exact Hrec |]. split; [exact Hsize |].
  exact (@machoRewriteUuid_first_match_sized NotSha256.hash Sample.LC_UUID
           "abc123" Sample.image_two_uuids (Sample.exem64 3) 48 Hrep Hrec Hsize).
Defined.

(** The second UUID command of [image_two_uuids], at offset 72, is the next
    record of the stream after the first one. *)
Example image_two_uuids_second :
  stream_reaches LittleEndian Sample.image_two_uuids
    (48 + Len (header_at LittleEndian Sample.image_two_uuids 48)) 72 /\
  Cmd (header_at LittleEndian Sample.image_two_uuids 72) = Sample.LC_UUID.
Proof. split; [vm_compute; apply stream_reaches_here | closed]. Qed.

(** Without the condition on the declared size, the statement fails: in
    [image_small_uuid] the first UUID-tagged record, at offset 32, declares
    a size of 8; the next record of the stream, at offset 40, is UUID-tagged
    too; the run returns nil and has overwritten bytes 40 to 55, the header
    and half of the payload of that second record. *)
Lemma machoRewriteUuid_first_match_overlap :
  representable Overlap.image_small_uuid /\
  uuid_record Sample.LC_UUID LittleEndian Overlap.image_small_uuid
    (Z.to_nat (Ncmd (Header (Sample.exem64 2))))
    (cmdOffset (Sample.exem64 2)) 32 /\
  stream_reaches LittleEndian Overlap.image_small_uuid
    (32 + Len (header_at LittleEndian Overlap.image_small_uuid 32)) 40 /\
  Cmd (header_at LittleEndian Overlap.image_small_uuid 40) = Sample.LC_UUID /\
  fst (@run NotSha256.hash Sample.LC_UUID "abc123" Overlap.image_small_uuid
            (Sample.exem64 2)) = Ok tt /\
  sub (snd (@run NotSha256.hash Sample.LC_UUID "abc123"
                 Overlap.image_small_uuid (Sample.exem64 2))) 40 64
  <> sub Overlap.image_small_uuid 40 64.
Proof.
  split; [closed |]. split; [walk_to_uuid |].
  split; [vm_compute; apply stream_reaches_here |].
  split; [closed |]. split; closed.
Qed.

Lemma machoRewriteUuid_absent_witness :
  representable Sample.image_no_uuid /\
  no_uuid_record Sample.LC_UUID (ByteOrder_ (Sample.exem32 2))
    Sample.image_no_uuid
    (Z.to_nat (Ncmd (Header (Sample.exem32 2))))
    (cmdOffset (Sample.exem32 2)) /\
  @run NotSha256.hash Sample.LC_UUID "abc123" Sample.image_no_uuid
       (Sample.exem32 2) = (Ok tt, Sample.image_no_uuid).
Proof.
  assert (Hrep : representable Sample.image_no_uuid) by closed.
  assert (Hrec : no_uuid_record Sample.LC_UUID (ByteOrder_ (Sample.exem32 2))
                   Sample.image_no_uuid
                   (Z.to_nat (Ncmd (Header (Sample.exem32 2))))
                   (cmdOffset (Sample.exem32 2))) by walk_past_all.
  split; [exact Hrep |]. split; [exact Hrec |].
  exact (@machoRewriteUuid_absent NotSha256.hash Sample.LC_UUID "abc123"
           Sample.image_no_uuid (Sample.exem32 2) Hrep Hrec).
Defined.

Lemma machoRewriteUuid_empty_buildid_witness :
  representable Sample.image_two_uuids /\
  uuid_record Sample.LC_UUID (ByteOrder_ (Sample.exem64 3))
    Sample.image_two_uuids
    (Z.to_nat (Ncmd (Header (Sample.exem64 3))))
    (cmdOffset (Sample.exem64 3)) 48 /\
  exists out : list byte,
    @run NotSha256.hash Sample.LC_UUID EmptyString Sample.image_two_uuids
         (Sample.exem64 3) = (Ok tt, out) /\
    sub out (Z.to_nat 48 + 8) (Z.to_nat 48 + 24) = repeat Byte.x00 16.
Proof.
  assert (Hrep : representable Sample.image_two_uuids) by closed.
  assert (Hrec : uuid_record Sample.LC_UUID (ByteOrder_ (Sample.exem64 3))
                   Sample.image_two_uuids
                   (Z.to_nat (Ncmd (Header (Sample.exem64 3))))
                   (cmdOffset (Sample.exem64 3)) 48) by walk_to_uuid.
  split; [exact Hrep |]. split; [exact Hrec |].
  exact (@machoRewriteUuid_empty_buildid NotSha256.hash Sample.LC_UUID
           Sample.image_two_uuids (Sample.exem64 3) 48 Hrep Hrec).
Defined.

(** The scenario of the specification: a 64-bit little-endian image with
    three commands, the third one the UUID command with a zero payload, and
    the build id "abc123".  The output is the image with the derived
    identifier as payload. *)
Example run_image3 :
  @run NotSha256.hash Sample.LC_UUID "abc123" Sample.image3 (Sample.exem64 3) =
    (Ok tt,
     firstn 64 Sample.image3
       ++ map byte.of_Z [0x93; 0x5e; 0xc2; 0xad; 0x35; 0x8f; 0x37; 0x7c;
                         0xdf; 0x0f; 0x44; 0xef; 0xe1; 0xbd; 0xa5; 0x76]).
Proof. vm_compute. reflexivity. Qed.

(** The scan stops at the UUID command: a header that announces more
    commands than the image holds is no obstacle once it is found. *)
Example run_image3_stops :
  @run NotSha256.hash Sample.LC_UUID "abc123" Sample.image3 (Sample.exem64 7) =
  @run NotSha256.hash Sample.LC_UUID "abc123" Sample.image3 (Sample.exem64 3).
Proof. vm_compute. reflexivity. Qed.

(** Of two UUID commands the second one keeps its payload. *)
Example run_image_two_uuids :
  @run NotSha256.hash Sample.LC_UUID "abc123" Sample.image_two_uuids
       (Sample.exem64 3) =
    (Ok tt,
     firstn 56 Sample.image_two_uuids
       ++ map byte.of_Z [0x93; 0x5e; 0xc2; 0xad; 0x35; 0x8f; 0x37; 0x7c;
                         0xdf; 0x0f; 0x44; 0xef; 0xe1; 0xbd; 0xa5; 0x76]
       ++ skipn 72 Sample.image_two_uuids).
Proof. vm_compute. reflexivity. Qed.

(** No command at all: the output is the source. *)
Example run_image_empty :
  @run NotSha256.hash Sample.LC_UUID "abc123" Sample.image_empty
       (Sample.exem64 0) = (Ok tt, Sample.image_empty).
Proof. vm_compute. reflexivity. Qed.

(** A header that announces a command the image does not hold: the scan
    fails on a truncated record and the output is the plain copy. *)
Example run_image_truncated :
  @run NotSha256.hash Sample.LC_UUID "abc123" Sample.image_no_uuid
       (Sample.exem32 3) = (Fail TruncatedRecord, Sample.image_no_uuid).
Proof. vm_compute. reflexivity. Qed.

(** * More on the derived identifier *)

Lemma unsigned_version (b : byte) :
  byte.unsigned (Go.or8 (Go.and8 b 0x0f) 0x30) = Z.land (byte.unsigned b) 0x0f + 0x30.
Proof. destruct b; reflexivity. Qed.

Lemma unsigned_variant (b : byte) :
  byte.unsigned (Go.or8 (Go.and8 b 0x3f) 0xc0) = Z.land (byte.unsigned b) 0x3f + 0xc0.
Proof. destruct b; reflexivity. Qed.

Lemma land_version (b : byte) :
  Z.land (byte.unsigned (Go.or8 (Go.and8 b 0x0f) 0x30)) 0x0f
  = Z.land (byte.unsigned b) 0x0f.
Proof. destruct b; reflexivity. Qed.

Lemma land_variant (b : byte) :
  Z.land (byte.unsigned (Go.or8 (Go.and8 b 0x3f) 0xc0)) 0x3f
  = Z.land (byte.unsigned b) 0x3f.
Proof. destruct b; reflexivity. Qed.

Lemma land_full (b : byte) : Z.land (byte.unsigned b) 0xff = byte.unsigned b.
Proof. destruct b; reflexivity. Qed.

Lemma version_eq (a b : byte) :
  Go.or8 (Go.and8 a 0x0f) 0x30 = Go.or8 (Go.and8 b 0x0f) 0x30 <->
  Z.land (byte.unsigned a) 0x0f = Z.land (byte.unsigned b) 0x0f.
Proof.
  split; intro H.
  - apply (f_equal byte.unsigned) in H. rewrite !unsigned_version in H. lia.
  - apply byte.unsigned_inj. rewrite !unsigned_version. lia.
Qed.

Lemma variant_eq (a b : byte) :
  Go.or8 (Go.and8 a 0x3f) 0xc0 = Go.or8 (Go.and8 b 0x3f) 0xc0 <->
  Z.land (byte.unsigned a) 0x3f = Z.land (byte.unsigned b) 0x3f.
Proof.
  split; intro H.
  - apply (f_equal byte.unsigned) in H. rewrite !unsigned_variant in H. lia.
  - apply byte.unsigned_inj. rewrite !unsigned_variant. lia.
Qed.

Lemma full_eq (a b : byte) :
  Z.land (byte.unsigned a) 0xff = Z.land (byte.unsigned b) 0xff <-> a = b.
Proof.
  rewrite !land_full. split; [apply byte.unsigned_inj | now intros ->].
Qed.

Section MoreUuidFacts.
Context {hash : Hash256}.

(** X1: on a non-empty build id the identifier keeps the digest: its
    sixteen bytes agree with the first sixteen bytes of the hash on every
    bit but the high nibble of byte 6 and the top two bits of byte 8. *)
Theorem uuidFromGoBuildId_kept_bits (s : string) :
  s <> EmptyString ->
  exists rv : list byte,
    uuidFromGoBuildId s = Some rv /\
    kept_bits rv = kept_bits (Sum256 (list_byte_of_string s)).
Proof.
  intro Hs. unfold uuidFromGoBuildId. rewrite (eqb_nonempty s Hs).
  pose proof (Sum256_length (list_byte_of_string s)) as Hlen.
  destruct (Sum256 (list_byte_of_string s)) as [| h0 h]; [discriminate Hlen |].
  do 15 (destruct h as [| ? h]; [discriminate Hlen |]).
  eexists. split; [cbn -[Go.or8 Go.and8]; reflexivity |].
  cbn [kept_bits uuid_mask combine map fst snd].
  now rewrite land_version, land_variant, combine_nil.
Qed.

(** X2: the sixteen zero bytes returned for the empty build id are never
    the identifier of a non-empty build id. *)
Theorem uuidFromGoBuildId_never_zero (s : string) :
  s <> EmptyString -> uuidFromGoBuildId s <> uuidFromGoBuildId EmptyString.
Proof.
  intros Hs Heq.
  destruct (uuidFromGoBuildId_nonempty s Hs)
    as (h & rv & b6 & b8 & _ & _ & _ & Hrv & _ & H6 & _).
  rewrite Hrv in Heq. cbn in Heq. injection Heq as ->.
  cbn in H6. injection H6 as H6.
  pose proof (version_nibble b6) as Hv. rewrite <- H6 in Hv. discriminate Hv.
Qed.

(** X3: two non-empty build ids get the same identifier exactly when
    their digests agree on the 122 bits the identifier keeps. *)
Theorem uuidFromGoBuildId_collision (s1 s2 : string) :
  s1 <> EmptyString -> s2 <> EmptyString ->
  (uuidFromGoBuildId s1 = uuidFromGoBuildId s2 <->
   kept_bits (Sum256 (list_byte_of_string s1))
   = kept_bits (Sum256 (list_byte_of_string s2))).
Proof.
  intros H1 H2. unfold uuidFromGoBuildId.
  rewrite (eqb_nonempty s1 H1), (eqb_nonempty s2 H2).
  pose proof (Sum256_length (list_byte_of_string s1)) as L1.
  pose proof (Sum256_length (list_byte_of_string s2)) as L2.
  destruct (Sum256 (list_byte_of_string s1)) as [| a0 a]; [discriminate L1 |].
  destruct (Sum256 (list_byte_of_string s2)) as [| b0 b]; [discriminate L2 |].
  do 15 (destruct a as [| ? a]; [discriminate L1 |]).
  do 15 (destruct b as [| ? b]; [discriminate L2 |]).
  cbn [kept_bits uuid_mask combine map fst snd]. rewrite !combine_nil.
  cbn -[Go.or8 Go.and8 Z.land].
  split; intro H.
  - injection H as E0 E1 E2 E3 E4 E5 E6 E7 E8 E9 E10 E11 E12 E13 E14 E15.
    apply version_eq in E6. apply variant_eq in E8. congruence.
  - injection H as E0 E1 E2 E3 E4 E5 E6 E7 E8 E9 E10 E11 E12 E13 E14 E15.
    apply full_eq in E0, E1, E2, E3, E4, E5, E7, E9, E10, E11, E12, E13, E14, E15.
    apply version_eq in E6. apply variant_eq in E8. congruence.
Qed.

End MoreUuidFacts.

(** * The scan and the walk *)

Lemma walk_Found (LC_UUID : Z) (o : ByteOrder) (image : list byte) (n : nat) :
  forall off at_ : Z,
    0 <= off -> walk LC_UUID o image n off = Found at_ ->
    uuid_record LC_UUID o image n off at_.
Proof.
  induction n as [| n IH]; intros off at_ H0; cbn [walk]; [discriminate |].
  destruct (Z.leb_spec (off + 8) (Z.of_nat (length image))) as [H8 | ?];
    [| discriminate].
  destruct (Z.eqb_spec (Cmd (header_at o image off)) LC_UUID) as [Htag | Htag].
  - destruct (Z.leb_spec (off + 24) (Z.of_nat (length image))) as [H24 | ?];
      [| discriminate].
    intros [= <-]. now apply uuid_record_here.
  - intro Hw. apply uuid_record_later; auto. apply IH; auto.
    pose proof (header_Len_range o image off H0 H8). lia.
Qed.

Lemma uuid_record_walk (LC_UUID : Z) (o : ByteOrder) (image : list byte)
      (n : nat) (off at_ : Z) :
  uuid_record LC_UUID o image n off at_ ->
  walk LC_UUID o image n off = Found at_.
Proof.
  induction 1 as [n off H0 H24 Htag | n off at_ H0 H8 Htag Hrec IH]; cbn [walk].
  - destruct (Z.leb_spec (off + 8) (Z.of_nat (length image))); [| lia].
    rewrite Htag, Z.eqb_refl.
    destruct (Z.leb_spec (off + 24) (Z.of_nat (length image))); [reflexivity | lia].
  - destruct (Z.leb_spec (off + 8) (Z.of_nat (length image))); [| lia].
    destruct (Z.eqb_spec (Cmd (header_at o image off)) LC_UUID); [contradiction |].
    exact IH.
Qed.

Lemma walk_Absent (LC_UUID : Z) (o : ByteOrder) (image : list byte) (n : nat) :
  forall off : Z,
    0 <= off -> walk LC_UUID o image n off = Absent ->
    no_uuid_record LC_UUID o image n off.
Proof.
  induction n as [| n IH]; intros off H0; cbn [walk];
    [intros _; apply no_uuid_record_done |].
  destruct (Z.leb_spec (off + 8) (Z.of_nat (length image))) as [H8 | ?];
    [| discriminate].
  destruct (Z.eqb_spec (Cmd (header_at o image off)) LC_UUID) as [Htag | Htag].
  - destruct (off + 24 <=? Z.of_nat (length image)); discriminate.
  - intro Hw. apply no_uuid_record_skip; auto. apply IH; auto.
    pose proof (header_Len_range o image off H0 H8). lia.
Qed.

(** The offsets of a walk never decrease. *)
Lemma uuid_record_le (LC_UUID : Z) (o : ByteOrder) (image : list byte)
      (n : nat) (off at_ : Z) :
  uuid_record LC_UUID o image n off at_ -> off <= at_.
Proof.
  induction 1 as [n off H0 H24 Htag | n off at_ H0 H8 Htag Hrec IH]; [lia |].
  pose proof (header_Len_range o image off H0 H8). lia.
Qed.

Section ScanWalk.
Context {hash : Hash256}.
Variable LC_UUID : Z.
Variable flagBuildid : string.

Lemma Next_short (r : loadCmdReader) (f : File) :
  0 <= next r -> size f < next r + 8 ->
  Next r f = (Fail TruncatedRecord, {| contents := contents f; position := next r |}).
Proof.
  intros H0 H8. unfold Next, File_Seek, io_ReadFull, size in *.
  cbn [bind Monad_IO ret position contents Size Fixed_loadCmd].
  destruct (Z.ltb_spec (next r) 0) as [? | _]; [lia |].
  cbn [position contents].
  destruct (Z.leb_spec (next r + Z.of_nat 8) (Z.of_nat (length (contents f))))
    as [? | _]; [lia | reflexivity].
Qed.

Lemma ReadAt_uuidCmd_short (r : loadCmdReader) (f : File) :
  0 <= offset r -> offset r + 8 <= size f -> size f < offset r + 24 ->
  representable (contents f) ->
  ReadAt (T := uuidCmd) r 0 f =
    (Fail OutOfBounds, {| contents := contents f; position := offset r |}).
Proof.
  intros H0 H8 H24 Hrep. unfold representable, size in *.
  unfold ReadAt, File_Seek, io_ReadFull, size.
  rewrite Z.add_0_r, int64_id by lia.
  cbn [bind Monad_IO ret position contents Size Fixed_uuidCmd].
  destruct (Z.ltb_spec (offset r) 0) as [? | _]; [lia |].
  cbn [position contents].
  destruct (Z.leb_spec (offset r + Z.of_nat 24) (Z.of_nat (length (contents f))))
    as [? | _]; [lia | reflexivity].
Qed.

(** The scan does what the walk says. *)
Lemma scanLoadCmds_walk (id : list byte) (n : nat) :
  uuidFromGoBuildId flagBuildid = Some id -> length id = 16%nat ->
  forall (r : loadCmdReader) (f : File),
    representable (contents f) -> 0 <= next r ->
    let w := walk LC_UUID (order r) (contents f) n (next r) in
    fst (scanLoadCmds LC_UUID flagBuildid n r f) = result_of w /\
    contents (snd (scanLoadCmds LC_UUID flagBuildid n r f))
      = output_of w (contents f) id.
Proof.
  intros Hid Hlen.
  induction n as [| n IH]; intros r f Hrep H0; cbn [walk]; [split; reflexivity |].
  destruct (Z.leb_spec (next r + 8) (Z.of_nat (length (contents f)))) as [H8 | H8].
  - destruct (Z.eqb_spec (Cmd (header_at (order r) (contents f) (next r))) LC_UUID)
      as [Htag | Htag].
    + destruct (Z.leb_spec (next r + 24) (Z.of_nat (length (contents f))))
        as [H24 | H24].
      * rewrite (scanLoadCmds_found LC_UUID flagBuildid (contents f) id (order r)
                   (S n) (next r) (next r) Hrep Hid Hlen
                   (uuid_record_here _ _ _ n (next r) H0 H24 Htag) r f)
          by reflexivity.
        split; reflexivity.
      * cbn [scanLoadCmds bind Monad_IO]. rewrite Next_ok by (unfold size; lia).
        rewrite Htag, Z.eqb_refl.
        rewrite ReadAt_uuidCmd_short by (cbn [offset]; unfold size; auto; lia).
        split; reflexivity.
    + cbn [scanLoadCmds bind Monad_IO]. rewrite Next_ok by (unfold size; lia).
      destruct (Z.eqb_spec (Cmd (header_at (order r) (contents f) (next r))) LC_UUID)
        as [E | _]; [contradiction |].
      pose proof (header_Len_range (order r) (contents f) (next r) H0 H8) as HL.
      assert (Hnext : int64 (next r + Len (header_at (order r) (contents f) (next r)))
                      = next r + Len (header_at (order r) (contents f) (next r))).
      { unfold representable in Hrep. apply int64_id. lia. }
      rewrite Hnext.
      specialize (IH {| offset := next r;
                        next := next r + Len (header_at (order r) (contents f) (next r));
                        order := order r |}
                     {| contents := contents f; position := next r + 8 |}).
      cbn [next order contents] in IH. apply IH; auto. lia.
  - cbn [scanLoadCmds bind Monad_IO]. rewrite Next_short by (unfold size; lia).
    split; reflexivity.
Qed.

(** The run on any representable image, by the end of the walk. *)
Lemma run_walk (exef : list byte) (exem : macho_File) (id : list byte) :
  representable exef ->
  uuidFromGoBuildId flagBuildid = Some id ->
  let w := walk LC_UUID (ByteOrder_ exem) exef
             (Z.to_nat (Ncmd (Header exem))) (cmdOffset exem) in
  run LC_UUID flagBuildid exef exem = (result_of w, output_of w exef id).
Proof.
  intros Hrep Hid w.
  destruct (uuidFromGoBuildId_length flagBuildid) as (id' & Hid' & Hlen).
  assert (id' = id) by congruence. subst id'.
  unfold run. rewrite machoRewriteUuid_scan.
  pose proof (scanLoadCmds_walk id (Z.to_nat (Ncmd (Header exem))) Hid Hlen
                {| offset := 0; next := cmdOffset exem; order := ByteOrder_ exem |}
                {| contents := exef; position := cmdOffset exem |}) as H.
  cbn [next order contents] in H.
  destruct (scanLoadCmds _ _ _ _ _) as [res outf]. cbn [fst snd] in H.
  destruct H as [-> ->]; auto.
  unfold cmdOffset. destruct (Magic (Header exem) =? Magic64); cbv; discriminate.
Qed.

End ScanWalk.

(** * Walks over a patched image *)

Lemma with_uuid_twice (image p id : list byte) (at_ : Z) :
  0 <= at_ -> at_ + 24 <= Z.of_nat (length image) -> length p = 16%nat ->
  with_uuid (with_uuid image at_ p) at_ id = with_uuid image at_ id.
Proof.
  intros H0 H24 Hp. unfold with_uuid at 1 3. f_equal; [| f_equal].
  - pose proof (with_uuid_before image p at_ H0 H24 Hp 0 (Z.to_nat at_ + 8)) as H.
    unfold sub in H. cbn [skipn] in H. rewrite !Nat.sub_0_r in H.
    apply H. lia.
  - unfold with_uuid. rewrite !skipn_app, length_firstn, Hp.
    rewrite (skipn_all2 (firstn _ _)) by (rewrite length_firstn; lia).
    rewrite (skipn_all2 p) by lia.
    cbn [app]. rewrite skipn_skipn. f_equal. lia.
Qed.

Lemma header_at_with_uuid (o : ByteOrder) (image p : list byte) (off at_ : Z) :
  0 <= off <= at_ -> at_ + 24 <= Z.of_nat (length image) -> length p = 16%nat ->
  header_at o (with_uuid image at_ p) off = header_at o image off.
Proof.
  intros H H24 Hp. unfold header_at. f_equal. apply with_uuid_before; auto; lia.
Qed.

Lemma uuid_record_with_uuid (LC_UUID : Z) (o : ByteOrder) (image p : list byte)
      (n : nat) (off at_ : Z) :
  length p = 16%nat ->
  uuid_record LC_UUID o image n off at_ ->
  uuid_record LC_UUID o (with_uuid image at_ p) n off at_.
Proof.
  intros Hp Hrec.
  induction Hrec as [n off H0 H24 Htag | n off at_ H0 H8 Htag Hrec IH].
  - apply uuid_record_here; auto.
    + rewrite with_uuid_length; auto.
    + rewrite header_at_with_uuid; auto; lia.
  - destruct (uuid_record_inside _ _ _ _ _ _ Hrec) as (Ha & Hin & _).
    pose proof (uuid_record_le _ _ _ _ _ _ Hrec) as Hle.
    pose proof (header_Len_range o image off H0 H8) as HL.
    apply uuid_record_later; auto.
    + rewrite with_uuid_length; auto.
    + rewrite header_at_with_uuid; auto; lia.
    + rewrite header_at_with_uuid; auto; lia.
Qed.

Lemma uuid_record_more (LC_UUID : Z) (o : ByteOrder) (image : list byte)
      (n m : nat) (off at_ : Z) :
  (n <= m)%nat ->
  uuid_record LC_UUID o image n off at_ -> uuid_record LC_UUID o image m off at_.
Proof.
  intros Hnm Hrec. revert m Hnm.
  induction Hrec as [n off H0 H24 Htag | n off at_ H0 H8 Htag Hrec IH];
    intros [| m] Hnm; try lia.
  - now apply uuid_record_here.
  - apply uuid_record_later; auto. apply IH. lia.
Qed.

Lemma cmdOffset_nonneg (exem : macho_File) : 0 <= cmdOffset exem.
Proof.
  unfold cmdOffset. destruct (Magic (Header exem) =? Magic64); cbv; discriminate.
Qed.

Section PatchedRun.
Context {hash : Hash256}.
Variable LC_UUID : Z.
Variable flagBuildid : string.

(** The run on an image whose UUID payload was replaced beforehand. *)
Lemma run_with_uuid (exef p : list byte) (exem : macho_File) (at_ : Z) :
  representable exef ->
  uuid_record LC_UUID (ByteOrder_ exem) exef
    (Z.to_nat (Ncmd (Header exem))) (cmdOffset exem) at_ ->
  length p = 16%nat ->
  run LC_UUID flagBuildid (with_uuid exef at_ p) exem
  = run LC_UUID flagBuildid exef exem.
Proof.
  intros Hrep Hrec Hp.
  destruct (uuidFromGoBuildId_length flagBuildid) as (id & Hid & Hlen).
  destruct (uuid_record_inside _ _ _ _ _ _ Hrec) as (H0 & H24 & _).
  rewrite (run_found LC_UUID flagBuildid exef id exem at_ Hrep Hid Hlen Hrec).
  rewrite (run_found LC_UUID flagBuildid (with_uuid exef at_ p) id exem at_);
    auto using uuid_record_with_uuid.
  - now rewrite with_uuid_twice.
  - unfold representable. now rewrite with_uuid_length.
Qed.

End PatchedRun.

(** * More on the rewritten image *)

Section MoreRunFacts.
Context {hash : Hash256}.
Variable LC_UUID : Z.

(** X6: when the walk reaches, before any UUID-tagged header and within
    [Ncmd] records, an offset with fewer than 8 bytes left, the run returns
    the error of [Next] and the output file is the plain copy. *)
Theorem machoRewriteUuid_truncated_header (flagBuildid : string)
        (exef : list byte) (exem : macho_File) (off : Z) :
  representable exef ->
  walk LC_UUID (ByteOrder_ exem) exef
       (Z.to_nat (Ncmd (Header exem))) (cmdOffset exem) = ShortHeader off ->
  run LC_UUID flagBuildid exef exem = (Fail TruncatedRecord, exef).
Proof.
  intros Hrep Hw.
  destruct (uuidFromGoBuildId_length flagBuildid) as (id & Hid & _).
  rewrite (run_walk LC_UUID flagBuildid exef exem id Hrep Hid), Hw. reflexivity.
Qed.

(** X7: when the first UUID-tagged header has fewer than 24 bytes left in
    the file, the run returns the error of [ReadAt] and writes nothing: the
    output file is the plain copy. *)
Theorem machoRewriteUuid_truncated_uuid (flagBuildid : string)
        (exef : list byte) (exem : macho_File) (at_ : Z) :
  representable exef ->
  walk LC_UUID (ByteOrder_ exem) exef
       (Z.to_nat (Ncmd (Header exem))) (cmdOffset exem) = ShortRecord at_ ->
  run LC_UUID flagBuildid exef exem = (Fail OutOfBounds, exef).
Proof.
  intros Hrep Hw.
  destruct (uuidFromGoBuildId_length flagBuildid) as (id & Hid & _).
  rewrite (run_walk LC_UUID flagBuildid exef exem id Hrep Hid), Hw. reflexivity.
Qed.

(** X9: when the run returns nil, one of two things has happened, and
    nothing else: [Ncmd] headers were read, none of them UUID-tagged, and
    the output file is the source; or the walk met a complete UUID command,
    at or after [cmdOffset], and the output file is the source with the
    derived identifier as payload of that command. *)
Theorem machoRewriteUuid_nil_cases (flagBuildid : string)
        (exef : list byte) (exem : macho_File) :
  representable exef ->
  fst (run LC_UUID flagBuildid exef exem) = Ok tt ->
  (no_uuid_record LC_UUID (ByteOrder_ exem) exef
     (Z.to_nat (Ncmd (Header exem))) (cmdOffset exem) /\
   snd (run LC_UUID flagBuildid exef exem) = exef) \/
  (exists (at_ : Z) (id : list byte),
     cmdOffset exem <= at_ /\
     uuid_record LC_UUID (ByteOrder_ exem) exef
       (Z.to_nat (Ncmd (Header exem))) (cmdOffset exem) at_ /\
     uuidFromGoBuildId flagBuildid = Some id /\
     snd (run LC_UUID flagBuildid exef exem) = with_uuid exef at_ id).
Proof.
  intros Hrep Hnil.
  destruct (uuidFromGoBuildId_length flagBuildid) as (id & Hid & Hlen).
  rewrite (run_walk LC_UUID flagBuildid exef exem id Hrep Hid) in *.
  destruct (walk _ _ _ _ _) as [at_ | | off | at_] eqn:Hw;
    cbn [fst snd output_of result_of] in *; try discriminate.
  - right. exists at_, id.
    apply walk_Found in Hw; [| apply cmdOffset_nonneg].
    split; [now apply uuid_record_le in Hw |]. auto.
  - left. split; [| reflexivity].
    apply walk_Absent in Hw; [exact Hw | apply cmdOffset_nonneg].
Qed.

(** X10: the payload that the image held before does not matter: two images
    that differ only in the sixteen payload bytes of the first UUID command
    give the same result and the same output file. *)
Theorem machoRewriteUuid_ignores_old_uuid (flagBuildid : string)
        (exef p : list byte) (exem : macho_File) (at_ : Z) :
  representable exef ->
  uuid_record LC_UUID (ByteOrder_ exem) exef
    (Z.to_nat (Ncmd (Header exem))) (cmdOffset exem) at_ ->
  length p = 16%nat ->
  run LC_UUID flagBuildid (with_uuid exef at_ p) exem
  = run LC_UUID flagBuildid exef exem.
Proof. apply run_with_uuid. Qed.

(** X11: rewriting the output of a rewrite is rewriting the source: the
    second build id wins, and with the same build id the run returns the
    same bytes again. *)
Theorem machoRewriteUuid_twice (b1 b2 : string)
        (exef : list byte) (exem : macho_File) :
  representable exef ->
  run LC_UUID b2 (snd (run LC_UUID b1 exef exem)) exem = run LC_UUID b2 exef exem.
Proof.
  intro Hrep.
  destruct (uuidFromGoBuildId_length b1) as (id & Hid & Hlen).
  rewrite (run_walk LC_UUID b1 exef exem id Hrep Hid).
  destruct (walk _ _ _ _ _) as [at_ | | off | at_] eqn:Hw; cbn [snd output_of];
    try reflexivity.
  apply walk_Found in Hw; [| apply cmdOffset_nonneg].
  now apply run_with_uuid.
Qed.

(** X12: once the UUID command is found the remaining count does not
    matter: a header that announces more commands, with the same magic and
    byte order, gives the same result and the same output file. *)
Theorem machoRewriteUuid_stops_at_first (flagBuildid : string)
        (exef : list byte) (exem exem' : macho_File) (at_ : Z) :
  representable exef ->
  uuid_record LC_UUID (ByteOrder_ exem) exef
    (Z.to_nat (Ncmd (Header exem))) (cmdOffset exem) at_ ->
  Magic (Header exem') = Magic (Header exem) ->
  ByteOrder_ exem' = ByteOrder_ exem ->
  Ncmd (Header exem) <= Ncmd (Header exem') ->
  run LC_UUID flagBuildid exef exem' = run LC_UUID flagBuildid exef exem.
Proof.
  intros Hrep Hrec Hmagic Horder Hncmd.
  destruct (uuidFromGoBuildId_length flagBuildid) as (id & Hid & Hlen).
  rewrite (run_found LC_UUID flagBuildid exef id exem at_ Hrep Hid Hlen Hrec).
  apply run_found; auto.
  rewrite Horder. unfold cmdOffset at 1. rewrite Hmagic. fold (cmdOffset exem).
  apply uuid_record_more with (n := Z.to_nat (Ncmd (Header exem))); [lia | exact Hrec].
Qed.

End MoreRunFacts.

(** * The further theorems on concrete inputs *)

Lemma uuidFromGoBuildId_kept_bits_witness :
  "abc123"%string <> EmptyString /\
  exists rv : list byte,
    @uuidFromGoBuildId NotSha256.hash "abc123" = Some rv /\
    kept_bits rv = kept_bits (@Sum256 NotSha256.hash (list_byte_of_string "abc123")).
Proof.
  split; [discriminate |].
  apply (@uuidFromGoBuildId_kept_bits NotSha256.hash "abc123"). discriminate.
Defined.

Lemma uuidFromGoBuildId_never_zero_witness :
  "abc123"%string <> EmptyString /\
  @uuidFromGoBuildId NotSha256.hash "abc123"
  <> @uuidFromGoBuildId NotSha256.hash EmptyString.
Proof.
  split; [discriminate |].
  apply (@uuidFromGoBuildId_never_zero NotSha256.hash "abc123"). discriminate.
Defined.

Lemma uuidFromGoBuildId_collision_witness :
  "abc123"%string <> EmptyString /\ "abc124"%string <> EmptyString /\
  (@uuidFromGoBuildId NotSha256.hash "abc123"
   = @uuidFromGoBuildId NotSha256.hash "abc124" <->
   kept_bits (@Sum256 NotSha256.hash (list_byte_of_string "abc123"))
   = kept_bits (@Sum256 NotSha256.hash (list_byte_of_string "abc124"))).
Proof.
  split; [discriminate |]. split; [discriminate |].
  apply (@uuidFromGoBuildId_collision NotSha256.hash "abc123" "abc124");
    discriminate.
Defined.

Lemma machoRewriteUuid_truncated_header_witness :
  representable Truncated.image_short_header /\
  walk Sample.LC_UUID (ByteOrder_ (Sample.exem64 2)) Truncated.image_short_header
       (Z.to_nat (Ncmd (Header (Sample.exem64 2))))
       (cmdOffset (Sample.exem64 2)) = ShortHeader 4128 /\
  @run NotSha256.hash Sample.LC_UUID "abc123" Truncated.image_short_header
       (Sample.exem64 2) = (Fail TruncatedRecord, Truncated.image_short_header).
Proof.
  assert (Hrep : representable Truncated.image_short_header) by closed.
  assert (Hw : walk Sample.LC_UUID (ByteOrder_ (Sample.exem64 2))
                 Truncated.image_short_header
                 (Z.to_nat (Ncmd (Header (Sample.exem64 2))))
                 (cmdOffset (Sample.exem64 2)) = ShortHeader 4128) by closed.
  split; [exact Hrep |]. split; [exact Hw |].
  exact (@machoRewriteUuid_truncated_header NotSha256.hash Sample.LC_UUID
           "abc123" Truncated.image_short_header (Sample.exem64 2) 4128 Hrep Hw).
Defined.

Lemma machoRewriteUuid_truncated_uuid_witness :
  representable Truncated.image_short_uuid /\
  walk Sample.LC_UUID (ByteOrder_ (Sample.exem64 1)) Truncated.image_short_uuid
       (Z.to_nat (Ncmd (Header (Sample.exem64 1))))
       (cmdOffset (Sample.exem64 1)) = ShortRecord 32 /\
  @run NotSha256.hash Sample.LC_UUID "abc123" Truncated.image_short_uuid
       (Sample.exem64 1) = (Fail OutOfBounds, Truncated.image_short_uuid).
Proof.
  assert (Hrep : representable Truncated.image_short_uuid) by closed.
  assert (Hw : walk Sample.LC_UUID (ByteOrder_ (Sample.exem64 1))
                 Truncated.image_short_uuid
                 (Z.to_nat (Ncmd (Header (Sample.exem64 1))))
                 (cmdOffset (Sample.exem64 1)) = ShortRecord 32) by closed.
  split; [exact Hrep |]. split; [exact Hw |].
  exact (@machoRewriteUuid_truncated_uuid NotSha256.hash Sample.LC_UUID
           "abc123" Truncated.image_short_uuid (Sample.exem64 1) 32 Hrep Hw).
Defined.

Lemma machoRewriteUuid_nil_cases_witness :
  representable Sample.image3 /\
  fst (@run NotSha256.hash Sample.LC_UUID "abc123" Sample.image3
            (Sample.exem64 3)) = Ok tt /\
  ((no_uuid_record Sample.LC_UUID (ByteOrder_ (Sample.exem64 3)) Sample.image3
      (Z.to_nat (Ncmd (Header (Sample.exem64 3))))
      (cmdOffset (Sample.exem64 3)) /\
    snd (@run NotSha256.hash Sample.LC_UUID "abc123" Sample.image3
              (Sample.exem64 3)) = Sample.image3) \/
   (exists (at_ : Z) (id : list byte),
      cmdOffset (Sample.exem64 3) <= at_ /\
      uuid_record Sample.LC_UUID (ByteOrder_ (Sample.exem64 3)) Sample.image3
        (Z.to_nat (Ncmd (Header (Sample.exem64 3))))
        (cmdOffset (Sample.exem64 3)) at_ /\
      @uuidFromGoBuildId NotSha256.hash "abc123" = Some id /\
      snd (@run NotSha256.hash Sample.LC_UUID "abc123" Sample.image3
                (Sample.exem64 3)) = with_uuid Sample.image3 at_ id)).
Proof.
  assert (Hrep : representable Sample.image3) by closed.
  assert (Hnil : fst (@run NotSha256.hash Sample.LC_UUID "abc123" Sample.image3
                           (Sample.exem64 3)) = Ok tt) by closed.
  split; [exact Hrep |]. split; [exact Hnil |].
  exact (@machoRewriteUuid_nil_cases NotSha256.hash Sample.LC_UUID "abc123"
           Sample.image3 (Sample.exem64 3) Hrep Hnil).
Defined.

Lemma machoRewriteUuid_ignores_old_uuid_witness :
  representable Sample.image3 /\
  uuid_record Sample.LC_UUID (ByteOrder_ (Sample.exem64 3)) Sample.image3
    (Z.to_nat (Ncmd (Header (Sample.exem64 3))))
    (cmdOffset (Sample.exem64 3)) 56 /\
  length (repeat Byte.xff 16) = 16%nat /\
  @run NotSha256.hash Sample.LC_UUID "abc123"
       (with_uuid Sample.image3 56 (repeat Byte.xff 16)) (Sample.exem64 3)
  = @run NotSha256.hash Sample.LC_UUID "abc123" Sample.image3 (Sample.exem64 3).
Proof.
  assert (Hrep : representable Sample.image3) by closed.
  assert (Hrec : uuid_record Sample.LC_UUID (ByteOrder_ (Sample.exem64 3))
                   Sample.image3 (Z.to_nat (Ncmd (Header (Sample.exem64 3))))
                   (cmdOffset (Sample.exem64 3)) 56) by walk_to_uuid.
  split; [exact Hrep |]. split; [exact Hrec |]. split; [reflexivity |].
  exact (@machoRewriteUuid_ignores_old_uuid NotSha256.hash Sample.LC_UUID
           "abc123" Sample.image3 (repeat Byte.xff 16) (Sample.exem64 3) 56
           Hrep Hrec eq_refl).
Defined.

Lemma machoRewriteUuid_twice_witness :
  representable Sample.image_two_uuids /\
  @run NotSha256.hash Sample.LC_UUID "abc124"
       (snd (@run NotSha256.hash Sample.LC_UUID "abc123" Sample.image_two_uuids
                  (Sample.exem64 3)))
       (Sample.exem64 3)
  = @run NotSha256.hash Sample.LC_UUID "abc124" Sample.image_two_uuids
         (Sample.exem64 3).
Proof.
  assert (Hrep : representable Sample.image_two_uuids) by closed.
  split; [exact Hrep |].
  exact (@machoRewriteUuid_twice NotSha256.hash Sample.LC_UUID "abc123" "abc124"
           Sample.image_two_uuids (Sample.exem64 3) Hrep).
Defined.

Lemma machoRewriteUuid_stops_at_first_witness :
  representable Sample.image3 /\
  uuid_record Sample.LC_UUID (ByteOrder_ (Sample.exem64 3)) Sample.image3
    (Z.to_nat (Ncmd (Header (Sample.exem64 3))))
    (cmdOffset (Sample.exem64 3)) 56 /\
  Magic (Header (Sample.exem64 7)) = Magic (Header (Sample.exem64 3)) /\
  ByteOrder_ (Sample.exem64 7) = ByteOrder_ (Sample.exem64 3) /\
  Ncmd (Header (Sample.exem64 3)) <= Ncmd (Header (Sample.exem64 7)) /\
  @run NotSha256.hash Sample.LC_UUID "abc123" Sample.image3 (Sample.exem64 7)
  = @run NotSha256.hash Sample.LC_UUID "abc123" Sample.image3 (Sample.exem64 3).
Proof.
  assert (Hrep : representable Sample.image3) by closed.
  assert (Hrec : uuid_record Sample.LC_UUID (ByteOrder_ (Sample.exem64 3))
                   Sample.image3 (Z.to_nat (Ncmd (Header (Sample.exem64 3))))
                   (cmdOffset (Sample.exem64 3)) 56) by walk_to_uuid.
  assert (Hncmd : Ncmd (Header (Sample.exem64 3)) <= Ncmd (Header (Sample.exem64 7)))
    by closed.
  split; [exact Hrep |]. split; [exact Hrec |].
  split; [reflexivity |]. split; [reflexivity |]. split; [exact Hncmd |].
  exact (@machoRewriteUuid_stops_at_first NotSha256.hash Sample.LC_UUID "abc123"
           Sample.image3 (Sample.exem64 3) (Sample.exem64 7) 56
           Hrep Hrec eq_refl eq_refl Hncmd).
Defined.
